(** * Optimistic category mutations over a shared query cache

    A shallow embedding of [CategoryMutations] (the four react-query
    mutation option objects for categories) together with the part of the
    JavaScript runtime they rely on: arrays are mutable objects reached
    through references, so the cache entry of the ['categories'] query and
    the value captured as [previousCategories] may be the very same array. *)

From Stdlib Require Import ZArith Lia Ascii.
From stdpp Require Import gmap strings list fin_maps pretty.

(** ** JavaScript values *)

(** Primitive values held in entity fields.  Numbers are the integers
    (identities, positions and counts are integral); [NaN] and fractions
    are outside the model. *)
Inductive JsVal : Type :=
  | JUndefined
  | JNull
  | JBool (b : bool)
  | JNum (n : Z)
  | JStr (s : string).

#[global] Instance JsVal_eq_dec : EqDecision JsVal.
Proof. solve_decision. Defined.

(** [a === b] on primitives. *)
Definition strict_eq (a b : JsVal) : bool := bool_decide (a = b).

(** [String(v)] and template-literal interpolation of a primitive. *)
Definition js_String (v : JsVal) : string :=
  match v with
  | JUndefined => "undefined"
  | JNull => "null"
  | JBool true => "true"
  | JBool false => "false"
  | JNum n => pretty n
  | JStr s => s
  end%string.

(** Truthiness of a primitive in a condition. *)
Definition js_truthy (v : JsVal) : bool :=
  match v with
  | JUndefined | JNull => false
  | JBool b => b
  | JNum n => negb (n =? 0)%Z
  | JStr s => negb (String.eqb s EmptyString)
  end.

(** The value a rejected transport call carries: any primitive, or an
    [Error] object with its [name] and [message]. *)
Inductive JsErr : Type :=
  | ErrValue (v : JsVal)
  | ErrObject (name message : string).

(** [err ? ... : ...]: every object is truthy. *)
Definition err_truthy (err : JsErr) : bool :=
  match err with
  | ErrValue v => js_truthy v
  | ErrObject _ _ => true
  end.

(** [String(err)]; for an object this is [Error.prototype.toString]. *)
Definition err_String (err : JsErr) : string :=
  match err with
  | ErrValue v => js_String v
  | ErrObject name message =>
      if String.eqb name EmptyString then message
      else if String.eqb message EmptyString then name
      else (name ++ ": " ++ message)%string
  end.

(** ** Entities *)

(** Modelled from the spec: the declaration of [CategoryEntity]
    (types/entity.types) is not part of the sources.  Section 3 describes an
    entity as a record with an identity, a title and further descriptive
    fields; it is embedded as a JavaScript object, a finite map from
    property names to values, which is what the object spread of the update
    transform operates on. *)
Abbreviation CategoryEntity := (gmap string JsVal).

(** Reading a property; a missing property reads as [undefined]. *)
Definition prop (name : string) (o : gmap string JsVal) : JsVal :=
  default JUndefined (o !! name).

(** The destructured [id] of the predicates [({ id }) => ...]. *)
Definition entity_id (e : CategoryEntity) : JsVal := prop "id" e.

(** [{ ...a, ...b }]: the properties of [b] win. *)
Definition spread (a b : gmap string JsVal) : gmap string JsVal := b ∪ a.

(** ** The runtime: array objects, the query cache, observable effects *)

(** References to array objects. *)
Abbreviation loc := nat.

Inductive Effect : Type :=
  | CancelQueries (key : string)
  | InvalidateQueries (key : string)
  | ToastError (message : string)
  | ToastSuccess (message : string).

#[global] Instance Effect_eq_dec : EqDecision Effect.
Proof. solve_decision. Defined.

Record World : Type := mkWorld {
  arrays : list (list CategoryEntity);  (* array objects, by reference *)
  queries : gmap string loc;            (* query key to its cached data *)
  effects : list Effect;                (* observable calls, oldest first *)
}.

(** The collection visible under a query key. *)
Definition cached (key : string) (w : World) : option (list CategoryEntity) :=
  l ← queries w !! key; arrays w !! l.

(** Computations over the world.  [None] is reserved for what JavaScript
    cannot do or the model cannot represent: following a reference to no
    array, and a write that would leave holes in an array. *)
Definition M (A : Type) : Type := World → option (A * World).

#[global] Instance M_ret : MRet M := λ A a w, Some (a, w).
#[global] Instance M_bind : MBind M := λ A B f m w,
  match m w with
  | Some (a, w') => f a w'
  | None => None
  end.

Definition deref (l : loc) : M (list CategoryEntity) := λ w,
  match arrays w !! l with
  | Some a => Some (a, w)
  | None => None
  end.

Definition alloc (a : list CategoryEntity) : M loc := λ w,
  Some (length (arrays w),
        mkWorld (arrays w ++ [a]) (queries w) (effects w)).

Definition store (l : loc) (a : list CategoryEntity) : M unit := λ w,
  if decide (l < length (arrays w))%nat
  then Some (tt, mkWorld (<[l := a]> (arrays w)) (queries w) (effects w))
  else None.

Definition emit (e : Effect) : M unit := λ w,
  Some (tt, mkWorld (arrays w) (queries w) (effects w ++ [e])).

(** ** Array operations *)

(** [arr[i] = x] on the elements of [arr]: an index in range replaces, the
    index [length] appends, a negative index names an ordinary property and
    leaves the elements alone, and an index beyond [length] would leave
    holes, which a list of entities does not represent. *)
Definition array_set {A} (i : Z) (x : A) (arr : list A) : option (list A) :=
  if decide (0 ≤ i < Z.of_nat (length arr))%Z then Some (<[Z.to_nat i := x]> arr)
  else if decide (i = Z.of_nat (length arr)) then Some (arr ++ [x])
  else if decide (i < 0)%Z then Some arr
  else None.

(** [arr.splice(start, deleteCount, ...items)] on the elements of [arr]:
    a negative [start] counts from the end, [start] is clamped to the
    length, and [deleteCount] to what remains. *)
Definition array_splice {A} (start deleteCount : Z) (items arr : list A) : list A :=
  let len := Z.of_nat (length arr) in
  let s := (if start <? 0 then Z.max (len + start) 0 else Z.min start len)%Z in
  let dc := (Z.min (Z.max deleteCount 0) (len - s))%Z in
  take (Z.to_nat s) arr ++ items ++ drop (Z.to_nat (s + dc)) arr.

(** [old[i] = x], in place. *)
Definition assign_index (old : loc) (i : Z) (x : CategoryEntity) : M unit :=
  arr ← deref old;
  match array_set i x arr with
  | Some arr' => store old arr'
  | None => λ _, None
  end.

(** [old.splice(start, deleteCount, ...items)], in place. *)
Definition splice (old : loc) (start deleteCount : Z) (items : list CategoryEntity) : M unit :=
  arr ← deref old;
  store old (array_splice start deleteCount items arr).

(** [old.filter(p)]: a new array. *)
Definition filter_array (p : CategoryEntity → bool) (old : loc) : M loc :=
  arr ← deref old;
  alloc (List.filter p arr).

(** ** Collaborators *)

(** Modelled from the spec: [findObjectAndIndexCloneDeep]
    (utils/common.utils) is not part of the sources.  Section 4.1: it returns
    the index of the first element satisfying the predicate, or a not-found
    sentinel, and an independently owned deep clone of that element, or
    nothing when no element matches.  Entities are values here, so the
    clone is the element's value; the sentinel is [-1]. *)
Definition findObjectAndIndexCloneDeep
    (predicate : CategoryEntity → bool) (array : list CategoryEntity)
    : Z * option CategoryEntity :=
  match list_find (λ e, predicate e = true) array with
  | Some (i, e) => (Z.of_nat i, Some e)
  | None => ((-1)%Z, None)
  end.

(** The query client of react-query, after the cache store contract of
    section 6.  [getQueryData] hands out the cached array itself, without
    copying it, and a functional [setQueryData] applies the updater to that
    same array and installs the array the updater returns.  (react-query
    may keep an equal array in place of the returned one to preserve
    referential identity; the elements under the key are the same, and
    only those are observed below.) *)
Module queryClient.

Definition cancelQueries (key : string) : M unit :=
  emit (CancelQueries key).

Definition getQueryData (key : string) : M (option loc) := λ w,
  Some (queries w !! key, w).

(** [setQueryData(key, data)] with a value. *)
Definition setQueryDataTo (key : string) (data : loc) : M unit := λ w,
  Some (tt, mkWorld (arrays w) (<[key := data]> (queries w)) (effects w)).

(** [setQueryData(key, updater)] with a function. *)
Definition setQueryData (key : string) (updater : option loc → M loc) : M unit :=
  prev ← getQueryData key;
  data ← updater prev;
  setQueryDataTo key data.

Definition invalidateQueries (key : string) : M unit :=
  emit (InvalidateQueries key).

End queryClient.

Module toast.

Definition error (message : string) : M unit := emit (ToastError message).

Definition success (message : string) : M unit := emit (ToastSuccess message).

End toast.

(** The context threaded from [onMutate] to [onError]. *)
Record Context : Type := mkContext { previousCategories : option loc }.

(** [context?.previousCategories] as a condition: an array is truthy even
    when empty, [undefined] is not. *)
Definition context_previous (context : option Context) : option loc :=
  context ≫= previousCategories.

(** The rollback shared, verbatim, by the four [onError] hooks. *)
Definition restore_previous (context : option Context) : M unit :=
  match context_previous context with
  | Some previous => queryClient.setQueryDataTo "categories" previous
  | None => mret tt
  end.

(** The tail of every error message. *)
Definition error_suffix (err : JsErr) : string :=
  if err_truthy err then String "010"%char (err_String err) else EmptyString.

Definition dquote : string := String "034"%char EmptyString.

(** ** createCategoryMutation *)
Module createCategoryMutation.

Record createCategoryVariables : Type :=
  mkVariables { createCategoryDto : gmap string JsVal }.

Section WithFactory.

(** [createOptimisticCategory] (utils/entity.utils) is not part of the
    sources; the hooks are parametric in it. *)
Variable createOptimisticCategory : gmap string JsVal → CategoryEntity.

Definition updater (dto : gmap string JsVal) (oldCategories : option loc) : M loc :=
  let optimisticNewCategory := createOptimisticCategory dto in
  match oldCategories with
  | Some old =>
      arr ← deref old;
      alloc (arr ++ [optimisticNewCategory])
  | None => alloc [optimisticNewCategory]
  end.

Definition onMutate (variables : createCategoryVariables) : M Context :=
  queryClient.cancelQueries "categories";;
  previousCategories ← queryClient.getQueryData "categories";
  queryClient.setQueryData "categories" (updater (createCategoryDto variables));;
  mret (mkContext previousCategories).

End WithFactory.

Definition error_prefix : string :=
  "An error occurred while creating a new Category".

Definition onError (err : JsErr) (context : option Context) : M unit :=
  restore_previous context;;
  toast.error (error_prefix ++ error_suffix err)%string.

Definition onSettled : M unit :=
  queryClient.invalidateQueries "categories".

Definition onSuccess (category : gmap string JsVal) : M unit :=
  toast.success
    ("Category " ++ dquote ++ js_String (prop "title" category) ++ dquote ++ " created!")%string.

End createCategoryMutation.

(** ** updateCategoryMutation *)
Module updateCategoryMutation.

Record updateCategoryVariables : Type :=
  mkVariables { categoryId : JsVal; updateCategoryDto : gmap string JsVal }.

Definition updater (categoryId : JsVal) (updateCategoryDto : gmap string JsVal)
    (oldCategories : option loc) : M loc :=
  match oldCategories with
  | Some old =>
      arr ← deref old;
      let '(targetCategoryIndex, targetCategoryClone) :=
        findObjectAndIndexCloneDeep (λ e, strict_eq (entity_id e) categoryId) arr in
      match targetCategoryClone with
      | Some clone =>
          let optimisticCategory := spread clone updateCategoryDto in
          assign_index old targetCategoryIndex optimisticCategory;;
          mret old
      | None => alloc []
      end
  | None => alloc []
  end.

Definition onMutate (variables : updateCategoryVariables) : M Context :=
  queryClient.cancelQueries "categories";;
  previousCategories ← queryClient.getQueryData "categories";
  queryClient.setQueryData "categories"
    (updater (categoryId variables) (updateCategoryDto variables));;
  mret (mkContext previousCategories).

Definition error_prefix : string :=
  "An error occurred while updating Category".

Definition onError (err : JsErr) (context : option Context) : M unit :=
  restore_previous context;;
  toast.error (error_prefix ++ error_suffix err)%string.

Definition onSettled : M unit :=
  queryClient.invalidateQueries "categories".

Definition onSuccess (category : gmap string JsVal) : M unit :=
  toast.success
    ("Category " ++ dquote ++ js_String (prop "title" category) ++ dquote ++ " updated!")%string.

End updateCategoryMutation.

(** ** repositionCategoryMutation *)
Module repositionCategoryMutation.

(** [newPosition] is an array index: an integer, possibly out of range. *)
Record repositionCategoryVariables : Type :=
  mkVariables { categoryId : JsVal; newPosition : Z }.

Definition updater (categoryId : JsVal) (newPosition : Z)
    (oldCategories : option loc) : M loc :=
  match oldCategories with
  | Some old =>
      arr ← deref old;
      let '(targetCategoryIndex, targetCategoryClone) :=
        findObjectAndIndexCloneDeep (λ e, strict_eq (entity_id e) categoryId) arr in
      match targetCategoryClone with
      | Some clone =>
          if ((newPosition =? targetCategoryIndex)
              || (newPosition >=? Z.of_nat (length arr))
              || (newPosition <? 0))%Z
          then mret old
          else
            splice old targetCategoryIndex 1 [];;
            splice old newPosition 0 [clone];;
            mret old
      | None => mret old
      end
  | None => alloc []
  end.

Definition onMutate (variables : repositionCategoryVariables) : M Context :=
  queryClient.cancelQueries "categories";;
  previousCategories ← queryClient.getQueryData "categories";
  queryClient.setQueryData "categories"
    (updater (categoryId variables) (newPosition variables));;
  mret (mkContext previousCategories).

Definition error_prefix : string :=
  "An error occurred while repositioning Category".

Definition onError (err : JsErr) (context : option Context) : M unit :=
  restore_previous context;;
  toast.error (error_prefix ++ error_suffix err)%string.

Definition onSettled : M unit :=
  queryClient.invalidateQueries "categories".

Definition onSuccess (category : gmap string JsVal) : M unit :=
  toast.success
    ("Category " ++ dquote ++ js_String (prop "title" category) ++ dquote ++ " repositioned!")%string.

End repositionCategoryMutation.

(** ** deleteCategoryMutation *)
Module deleteCategoryMutation.

Record deleteCategoryVariables : Type :=
  mkVariables { categoryId : JsVal }.

Definition updater (categoryId : JsVal) (oldCategories : option loc) : M loc :=
  match oldCategories with
  | Some old => filter_array (λ e, negb (strict_eq (entity_id e) categoryId)) old
  | None => alloc []
  end.

Definition onMutate (variables : deleteCategoryVariables) : M Context :=
  queryClient.cancelQueries "categories";;
  previousCategories ← queryClient.getQueryData "categories";
  queryClient.setQueryData "categories" (updater (categoryId variables));;
  mret (mkContext previousCategories).

Definition error_prefix : string :=
  "An error occurred while deleting the Category".

Definition onError (err : JsErr) (context : option Context) : M unit :=
  restore_previous context;;
  toast.error (error_prefix ++ error_suffix err)%string.

Definition onSettled : M unit :=
  queryClient.invalidateQueries "categories".

Definition onSuccess (deleteResult : gmap string JsVal) : M unit :=
  toast.success
    (js_String (prop "affected" deleteResult) ++ " Category deleted!")%string.

End deleteCategoryMutation.

(** ** The four operations together *)
Module CategoryMutations.

Inductive Operation : Type :=
  | Create (variables : createCategoryMutation.createCategoryVariables)
  | Update (variables : updateCategoryMutation.updateCategoryVariables)
  | Reposition (variables : repositionCategoryMutation.repositionCategoryVariables)
  | Delete (variables : deleteCategoryMutation.deleteCategoryVariables).

(** What the transport call settles with: the confirmed entity (or the
    deletion receipt), or an error value. *)
Inductive Outcome : Type :=
  | Resolved (data : gmap string JsVal)
  | Rejected (err : JsErr).

Section WithFactory.

Variable createOptimisticCategory : gmap string JsVal → CategoryEntity.

Definition onMutate (op : Operation) : M Context :=
  match op with
  | Create v => createCategoryMutation.onMutate createOptimisticCategory v
  | Update v => updateCategoryMutation.onMutate v
  | Reposition v => repositionCategoryMutation.onMutate v
  | Delete v => deleteCategoryMutation.onMutate v
  end.

Definition onError (op : Operation) (err : JsErr) (context : option Context) : M unit :=
  match op with
  | Create _ => createCategoryMutation.onError err context
  | Update _ => updateCategoryMutation.onError err context
  | Reposition _ => repositionCategoryMutation.onError err context
  | Delete _ => deleteCategoryMutation.onError err context
  end.

Definition onSettled (op : Operation) : M unit :=
  match op with
  | Create _ => createCategoryMutation.onSettled
  | Update _ => updateCategoryMutation.onSettled
  | Reposition _ => repositionCategoryMutation.onSettled
  | Delete _ => deleteCategoryMutation.onSettled
  end.

Definition onSuccess (op : Operation) (data : gmap string JsVal) : M unit :=
  match op with
  | Create _ => createCategoryMutation.onSuccess data
  | Update _ => updateCategoryMutation.onSuccess data
  | Reposition _ => repositionCategoryMutation.onSuccess data
  | Delete _ => deleteCategoryMutation.onSuccess data
  end.

Definition error_prefix (op : Operation) : string :=
  match op with
  | Create _ => createCategoryMutation.error_prefix
  | Update _ => updateCategoryMutation.error_prefix
  | Reposition _ => repositionCategoryMutation.error_prefix
  | Delete _ => deleteCategoryMutation.error_prefix
  end.

(** Modelled from the spec: the hooks are driven by react-query's
    [useMutation], which is not part of the sources.  Section 4.3 fixes the
    order for one invocation: the pre-mutation hook (cancel, snapshot,
    apply), the transport call, then the success or the error hook with the
    context the pre-mutation hook returned, then the settlement hook. *)
Definition mutate (op : Operation) (outcome : Outcome) : M unit :=
  context ← onMutate op;
  match outcome with
  | Resolved data => onSuccess op data;; onSettled op
  | Rejected err => onError op err (Some context);; onSettled op
  end.

(** A failed invocation up to and including its ERROR phase. *)
Definition mutate_then_fail (op : Operation) (err : JsErr) : M unit :=
  context ← onMutate op;
  onError op err (Some context).

End WithFactory.

End CategoryMutations.

(** * Sample data *)

Definition category (id : Z) (title : string) : CategoryEntity :=
  {[ "id" := JNum id; "title" := JStr title ]}.

(** The collection of the scenario of section 8, cached under
    ['categories']. *)
Definition board : list CategoryEntity :=
  [category 1 "A"; category 2 "B"; category 3 "C"].

Definition board_world : World :=
  mkWorld [board] {[ "categories" := 0%nat ]} [].

(** A client that has not fetched anything yet. *)
Definition blank_world : World := mkWorld [] ∅ [].

(** A stand-in for the optimistic factory: the request's fields under the
    placeholder identity [0]. *)
Definition sample_factory (dto : gmap string JsVal) : CategoryEntity :=
  <["id" := JNum 0]> dto.

Definition network_error : JsErr := ErrObject "Error" "Network Error".

(** * Vocabulary of the statements *)

(** [first_at categoryId C i E]: [E] sits at index [i] of [C], carries the
    identity, and no earlier element does.  Under the uniqueness invariant
    of section 3 every occurrence of an identity is its first. *)
Definition first_at (categoryId : JsVal) (C : list CategoryEntity)
    (i : nat) (E : CategoryEntity) : Prop :=
  C !! i = Some E ∧ entity_id E = categoryId ∧
  Forall (λ e, entity_id e ≠ categoryId) (take i C).

Definition absent_from (categoryId : JsVal) (C : list CategoryEntity) : Prop :=
  Forall (λ e, entity_id e ≠ categoryId) C.

(** The world [w] with heap [h]. *)
Definition with_arrays (h : list (list CategoryEntity)) (w : World) : World :=
  mkWorld h (queries w) (effects w).

(** The world [w] once refetches of ['categories'] were cancelled. *)
Definition cancelled (w : World) : World :=
  mkWorld (arrays w) (queries w) (effects w ++ [CancelQueries "categories"]).

(** The world right after a pre-mutation hook ran in [w]: refetches
    cancelled, heap [h], and the array [data] installed under
    ['categories']. *)
Definition applied (data : loc) (h : list (list CategoryEntity)) (w : World) : World :=
  mkWorld h (<["categories" := data]> (queries w))
    (effects w ++ [CancelQueries "categories"]).

(** The world after an error hook ran in [w] with the given context. *)
Definition rolled_back (context : option Context) (message : string) (w : World) : World :=
  mkWorld (arrays w)
    (match context_previous context with
     | Some previous => <["categories" := previous]> (queries w)
     | None => queries w
     end)
    (effects w ++ [ToastError message]).

(** Every reference the cache holds under ['categories'] leads to an array. *)
Definition well_formed (w : World) : Prop :=
  ∀ l, queries w !! "categories" = Some l → is_Some (arrays w !! l).

#[global] Instance first_at_dec categoryId C i E :
  Decision (first_at categoryId C i E).
Proof. unfold first_at. apply _. Defined.

#[global] Instance absent_from_dec categoryId C :
  Decision (absent_from categoryId C).
Proof. unfold absent_from. apply _. Defined.

(** The operations that name an existing entity by its identity. *)
Definition identity_targeted (op : CategoryMutations.Operation) : Prop :=
  match op with
  | CategoryMutations.Create _ => False
  | _ => True
  end.

(** The transform of [op] writes into the cached array [C] itself: an
    update that finds its target, or a reposition that finds its target
    and moves it. *)
Definition rewrites_in_place (op : CategoryMutations.Operation)
    (C : list CategoryEntity) : Prop :=
  match op with
  | CategoryMutations.Update v =>
      ∃ i E, first_at (updateCategoryMutation.categoryId v) C i E
  | CategoryMutations.Reposition v =>
      ∃ i E, first_at (repositionCategoryMutation.categoryId v) C i E
             ∧ (0 ≤ repositionCategoryMutation.newPosition v < Z.of_nat (length C))%Z
             ∧ repositionCategoryMutation.newPosition v ≠ Z.of_nat i
  | _ => False
  end.

(** [s] occurs inside [t]. *)
Definition str_infix (s t : string) : Prop :=
  ∃ a b, t = (a ++ s ++ b)%string.

(** * Properties *)

(** ** Running the monad *)

Lemma bind_run {A B} (m : M A) (k : A → M B) (w : World) :
  (m ≫= k) w = match m w with Some (a, w') => k a w' | None => None end.
Proof. reflexivity. Qed.

Lemma bind_run_Some {A B} (m : M A) (k : A → M B) (w w' : World) (a : A) :
  m w = Some (a, w') → (m ≫= k) w = k a w'.
Proof. intros H. rewrite bind_run, H. reflexivity. Qed.

Lemma ret_run {A} (a : A) (w : World) : (mret a : M A) w = Some (a, w).
Proof. reflexivity. Qed.

Lemma deref_run l a w : arrays w !! l = Some a → deref l w = Some (a, w).
Proof. unfold deref. intros ->. reflexivity. Qed.

Lemma store_run l a w :
  is_Some (arrays w !! l) →
  store l a w = Some (tt, mkWorld (<[l := a]> (arrays w)) (queries w) (effects w)).
Proof.
  intros Hl%lookup_lt_is_Some. unfold store.
  destruct (decide (l < length (arrays w))%nat); [reflexivity | lia].
Qed.

Lemma lookup_alloc (h : list (list CategoryEntity)) a :
  (h ++ [a]) !! length h = Some a.
Proof. rewrite lookup_app_r, Nat.sub_diag by lia. reflexivity. Qed.

(** ** The located element *)

Lemma strict_eq_true a b : strict_eq a b = true ↔ a = b.
Proof. unfold strict_eq. apply bool_decide_eq_true. Qed.

Lemma find_first_at categoryId C i E :
  first_at categoryId C i E →
  findObjectAndIndexCloneDeep (λ e, strict_eq (entity_id e) categoryId) C
  = (Z.of_nat i, Some E).
Proof.
  intros (Hi & Hid & Hbefore). unfold findObjectAndIndexCloneDeep.
  assert (list_find (λ e, strict_eq (entity_id e) categoryId = true) C
          = Some (i, E)) as ->; [|reflexivity].
  apply list_find_Some. split; [exact Hi|]. split.
  - apply strict_eq_true, Hid.
  - intros j y Hj Hlt Hy%strict_eq_true.
    rewrite Forall_forall in Hbefore. apply (Hbefore y); [|exact Hy].
    apply list_elem_of_lookup. exists j. rewrite lookup_take_lt by lia. exact Hj.
Qed.

Lemma find_absent categoryId C :
  absent_from categoryId C →
  findObjectAndIndexCloneDeep (λ e, strict_eq (entity_id e) categoryId) C
  = ((-1)%Z, None).
Proof.
  intros Habs. unfold findObjectAndIndexCloneDeep.
  assert (list_find (λ e, strict_eq (entity_id e) categoryId = true) C = None)
    as ->; [|reflexivity].
  apply list_find_None. eapply Forall_impl; [exact Habs|].
  intros e Hne Heq%strict_eq_true. contradiction.
Qed.

Lemma unique_first_at categoryId C i E :
  NoDup (entity_id <$> C) → C !! i = Some E → entity_id E = categoryId →
  first_at categoryId C i E.
Proof.
  intros Hnd Hi Hid. split; [exact Hi|]. split; [exact Hid|].
  apply Forall_forall. intros e He Heq.
  apply list_elem_of_lookup in He as [j Hj].
  assert (j < i)%nat as Hlt.
  { apply lookup_lt_Some in Hj. rewrite length_take in Hj. lia. }
  rewrite lookup_take_lt in Hj by lia.
  assert (j = i); [|lia].
  eapply NoDup_lookup; [exact Hnd| |].
  - rewrite list_lookup_fmap, Hj. reflexivity.
  - rewrite list_lookup_fmap, Hi. simpl. congruence.
Qed.

(** ** Splicing *)

Lemma array_splice_remove {A} (C : list A) (i : nat) :
  (i < length C)%nat → array_splice (Z.of_nat i) 1 [] C = delete i C.
Proof.
  intros Hi. unfold array_splice.
  destruct (Z.ltb_spec (Z.of_nat i) 0) as [?|_]; [lia|].
  rewrite Z.min_l by lia.
  replace (Z.min (Z.max 1 0) (Z.of_nat (length C) - Z.of_nat i)) with 1%Z by lia.
  rewrite Nat2Z.id. replace (Z.to_nat (Z.of_nat i + 1)) with (S i) by lia.
  rewrite delete_take_drop. reflexivity.
Qed.

Lemma array_splice_insert {A} (D : list A) (j : Z) (x : A) :
  (0 ≤ j ≤ Z.of_nat (length D))%Z →
  array_splice j 0 [x] D = take (Z.to_nat j) D ++ x :: drop (Z.to_nat j) D.
Proof.
  intros Hj. unfold array_splice.
  destruct (Z.ltb_spec j 0) as [?|_]; [lia|].
  rewrite Z.min_l by lia.
  replace (Z.min (Z.max 0 0) (Z.of_nat (length D) - j)) with 0%Z by lia.
  rewrite Z.add_0_r. reflexivity.
Qed.

(** The list after the two splices of a move from [i] to [j]. *)
Lemma moved_shape {A} (C : list A) (i : nat) (j : Z) (x : A) :
  (i < length C)%nat → (0 ≤ j < Z.of_nat (length C))%Z →
  let C' := array_splice j 0 [x] (array_splice (Z.of_nat i) 1 [] C) in
  C' !! Z.to_nat j = Some x ∧ delete (Z.to_nat j) C' = delete i C ∧
  length C' = length C.
Proof.
  intros Hi Hj. cbn zeta. rewrite array_splice_remove by exact Hi.
  assert (length (delete i C) = length C - 1)%nat as Hlen.
  { rewrite length_delete; [reflexivity|]. apply lookup_lt_is_Some. exact Hi. }
  rewrite array_splice_insert by lia.
  assert (length (take (Z.to_nat j) (delete i C)) = Z.to_nat j) as Htake.
  { apply length_take_le. lia. }
  split; [|split].
  - apply list_lookup_middle. symmetry. exact Htake.
  - rewrite <- Htake at 1. rewrite delete_middle, take_drop. reflexivity.
  - rewrite length_app, Htake. cbn [length]. rewrite length_drop. lia.
Qed.

(** ** Filtering *)

Lemma filter_sublist {A} (p : A → bool) (l : list A) :
  List.filter p l `sublist_of` l.
Proof.
  induction l as [|x l IH]; cbn; [constructor|].
  destruct (p x); constructor; exact IH.
Qed.

Lemma filter_keeps_sublists {A} (p : A → bool) (k l : list A) :
  k `sublist_of` l → Forall (λ x, p x = true) k → k `sublist_of` List.filter p l.
Proof.
  induction 1 as [|x k l Hkl IH|x k l Hkl IH]; intros Hall; cbn.
  - constructor.
  - apply Forall_cons in Hall as [Hx Hall]. rewrite Hx.
    constructor. apply IH, Hall.
  - destruct (p x); [constructor|]; apply IH, Hall.
Qed.

Lemma filter_all {A} (p : A → bool) (l : list A) :
  Forall (λ x, p x = true) (List.filter p l).
Proof.
  apply Forall_forall. intros x Hx%list_elem_of_In%filter_In. apply Hx.
Qed.

Lemma filter_length_split {A} (p : A → bool) (l : list A) :
  (length (List.filter p l) + length (List.filter (λ x, negb (p x)) l)
   = length l)%nat.
Proof.
  induction l as [|x l IH]; cbn; [reflexivity|].
  destruct (p x); cbn; lia.
Qed.

Lemma filter_none {A} (p : A → bool) (l : list A) :
  Forall (λ x, p x = false) l → List.filter p l = [].
Proof.
  induction 1 as [|x l Hx _ IH]; cbn; [reflexivity|]. rewrite Hx. exact IH.
Qed.

Lemma unique_matches_at_most_one (categoryId : JsVal) (C : list CategoryEntity) :
  NoDup (entity_id <$> C) →
  (length (List.filter (λ e, strict_eq (entity_id e) categoryId) C) ≤ 1)%nat.
Proof.
  induction C as [|e C IH]; cbn; [lia|].
  intros [Hnotin Hnd]%NoDup_cons.
  destruct (strict_eq (entity_id e) categoryId) eqn:He; [|apply IH, Hnd].
  apply strict_eq_true in He. cbn.
  assert (List.filter (λ e0, strict_eq (entity_id e0) categoryId) C = []) as ->;
    [|cbn; lia].
  apply filter_none, Forall_forall. intros e' Hin.
  destruct (strict_eq (entity_id e') categoryId) eqn:He'; [|reflexivity].
  apply strict_eq_true in He'. exfalso. apply Hnotin.
  rewrite He, <- He'. apply list_elem_of_fmap. exists e'.
  split; [reflexivity|exact Hin].
Qed.

(** ** The speculative transforms, run *)

Lemma apply_phase_run (updater : option loc → M loc) w data h :
  updater (queries w !! "categories") (cancelled w)
  = Some (data, with_arrays h (cancelled w)) →
  (queryClient.cancelQueries "categories";;
   previousCategories ← queryClient.getQueryData "categories";
   queryClient.setQueryData "categories" updater;;
   mret (mkContext previousCategories)) w
  = Some (mkContext (queries w !! "categories"), applied data h w).
Proof.
  intros Hup. unfold queryClient.setQueryData, queryClient.cancelQueries,
    queryClient.getQueryData, queryClient.setQueryDataTo.
  rewrite !bind_run. cbn. rewrite !bind_run. cbn.
  change (mkWorld (arrays w) (queries w)
            (effects w ++ [CancelQueries "categories"])) with (cancelled w).
  rewrite Hup. reflexivity.
Qed.

Lemma alloc_run a w :
  alloc a w = Some (length (arrays w), with_arrays (arrays w ++ [a]) w).
Proof. reflexivity. Qed.

Lemma create_updater_present factory dto w l C :
  arrays w !! l = Some C →
  createCategoryMutation.updater factory dto (Some l) w
  = Some (length (arrays w), with_arrays (arrays w ++ [C ++ [factory dto]]) w).
Proof.
  intros Hl. unfold createCategoryMutation.updater.
  rewrite (bind_run_Some _ _ _ _ _ (deref_run _ _ _ Hl)). reflexivity.
Qed.

Lemma update_updater_found categoryId dto w l C i E :
  arrays w !! l = Some C → first_at categoryId C i E →
  updateCategoryMutation.updater categoryId dto (Some l) w
  = Some (l, with_arrays (<[l := <[i := spread E dto]> C]> (arrays w)) w).
Proof.
  intros Hl Hfirst. unfold updateCategoryMutation.updater.
  rewrite (bind_run_Some _ _ _ _ _ (deref_run _ _ _ Hl)).
  rewrite (find_first_at _ _ _ _ Hfirst).
  destruct Hfirst as (Hi & _ & _). apply lookup_lt_Some in Hi.
  unfold assign_index. rewrite !bind_run, (deref_run _ _ _ Hl).
  unfold array_set. rewrite decide_True by lia.
  rewrite Nat2Z.id, store_run by (rewrite Hl; eauto). reflexivity.
Qed.

Lemma update_updater_missing categoryId dto w l C :
  arrays w !! l = Some C → absent_from categoryId C →
  updateCategoryMutation.updater categoryId dto (Some l) w
  = Some (length (arrays w), with_arrays (arrays w ++ [[]]) w).
Proof.
  intros Hl Habs. unfold updateCategoryMutation.updater.
  rewrite (bind_run_Some _ _ _ _ _ (deref_run _ _ _ Hl)).
  rewrite (find_absent _ _ Habs). reflexivity.
Qed.

Lemma reposition_updater_kept categoryId newPosition w l C i E :
  arrays w !! l = Some C → first_at categoryId C i E →
  (newPosition = Z.of_nat i ∨ (newPosition >= Z.of_nat (length C))%Z ∨ (newPosition < 0)%Z) →
  repositionCategoryMutation.updater categoryId newPosition (Some l) w
  = Some (l, w).
Proof.
  intros Hl Hfirst Hcond. unfold repositionCategoryMutation.updater.
  rewrite (bind_run_Some _ _ _ _ _ (deref_run _ _ _ Hl)).
  rewrite (find_first_at _ _ _ _ Hfirst).
  destruct (Z.eqb_spec newPosition (Z.of_nat i)); [reflexivity|].
  destruct (Z.geb_spec newPosition (Z.of_nat (length C))); [reflexivity|].
  destruct (Z.ltb_spec newPosition 0); [reflexivity|]. lia.
Qed.

Lemma reposition_updater_moved categoryId newPosition w l C i E :
  arrays w !! l = Some C → first_at categoryId C i E →
  (0 ≤ newPosition < Z.of_nat (length C))%Z → newPosition ≠ Z.of_nat i →
  repositionCategoryMutation.updater categoryId newPosition (Some l) w
  = Some (l, with_arrays
               (<[l := array_splice newPosition 0 [E]
                         (array_splice (Z.of_nat i) 1 [] C)]> (arrays w)) w).
Proof.
  intros Hl Hfirst Hrange Hne. unfold repositionCategoryMutation.updater.
  rewrite (bind_run_Some _ _ _ _ _ (deref_run _ _ _ Hl)).
  rewrite (find_first_at _ _ _ _ Hfirst).
  destruct (Z.eqb_spec newPosition (Z.of_nat i)); [contradiction|].
  destruct (Z.geb_spec newPosition (Z.of_nat (length C))); [lia|].
  destruct (Z.ltb_spec newPosition 0); [lia|]. cbn [orb].
  assert (is_Some (arrays w !! l)) as Hsome by (rewrite Hl; eauto).
  unfold splice. rewrite !bind_run, (deref_run _ _ _ Hl), (store_run _ _ _ Hsome).
  set (w1 := mkWorld (<[l := array_splice (Z.of_nat i) 1 [] C]> (arrays w))
                     (queries w) (effects w)).
  assert (arrays w1 !! l = Some (array_splice (Z.of_nat i) 1 [] C)) as Hl1.
  { apply list_lookup_insert_eq, lookup_lt_is_Some, Hsome. }
  rewrite !bind_run, (deref_run _ _ _ Hl1), store_run by (rewrite Hl1; eauto).
  cbn [w1 arrays queries effects]. rewrite list_insert_insert_eq. reflexivity.
Qed.

Lemma reposition_updater_missing categoryId newPosition w l C :
  arrays w !! l = Some C → absent_from categoryId C →
  repositionCategoryMutation.updater categoryId newPosition (Some l) w
  = Some (l, w).
Proof.
  intros Hl Habs. unfold repositionCategoryMutation.updater.
  rewrite (bind_run_Some _ _ _ _ _ (deref_run _ _ _ Hl)).
  rewrite (find_absent _ _ Habs). reflexivity.
Qed.

Lemma delete_updater_present categoryId w l C :
  arrays w !! l = Some C →
  deleteCategoryMutation.updater categoryId (Some l) w
  = Some (length (arrays w),
          with_arrays
            (arrays w ++ [List.filter (λ e, negb (strict_eq (entity_id e) categoryId)) C])
            w).
Proof.
  intros Hl. unfold deleteCategoryMutation.updater, filter_array.
  rewrite (bind_run_Some _ _ _ _ _ (deref_run _ _ _ Hl)). reflexivity.
Qed.

(** ** What the cache shows after a hook *)

Lemma cached_applied data h w :
  cached "categories" (applied data h w) = h !! data.
Proof. unfold cached, applied. cbn. rewrite lookup_insert_eq. reflexivity. Qed.

Lemma cached_applied_fresh a w :
  cached "categories" (applied (length (arrays w)) (arrays w ++ [a]) w) = Some a.
Proof. rewrite cached_applied. apply lookup_alloc. Qed.

Lemma cached_applied_inplace l a w :
  is_Some (arrays w !! l) →
  cached "categories" (applied l (<[l := a]> (arrays w)) w) = Some a.
Proof.
  intros Hl. rewrite cached_applied.
  apply list_lookup_insert_eq, lookup_lt_is_Some, Hl.
Qed.

Lemma cached_applied_same l w :
  queries w !! "categories" = Some l →
  cached "categories" (applied l (arrays w) w) = cached "categories" w.
Proof. intros Hq. rewrite cached_applied. unfold cached. rewrite Hq. reflexivity. Qed.

(** ** The pre-mutation hooks, run *)

Section Hooks.

Variable createOptimisticCategory : gmap string JsVal → CategoryEntity.

Lemma create_onMutate_present v w l C :
  queries w !! "categories" = Some l → arrays w !! l = Some C →
  createCategoryMutation.onMutate createOptimisticCategory v w
  = Some (mkContext (Some l),
          applied (length (arrays w))
            (arrays w ++ [C ++ [createOptimisticCategory
                                  (createCategoryMutation.createCategoryDto v)]]) w).
Proof.
  intros Hq Hl. unfold createCategoryMutation.onMutate. rewrite <- Hq.
  apply apply_phase_run. rewrite Hq.
  apply (create_updater_present _ _ (cancelled w)), Hl.
Qed.

Lemma create_onMutate_absent v w :
  queries w !! "categories" = None →
  createCategoryMutation.onMutate createOptimisticCategory v w
  = Some (mkContext None,
          applied (length (arrays w))
            (arrays w ++ [[createOptimisticCategory
                             (createCategoryMutation.createCategoryDto v)]]) w).
Proof.
  intros Hq. unfold createCategoryMutation.onMutate. rewrite <- Hq.
  apply apply_phase_run. rewrite Hq. reflexivity.
Qed.

End Hooks.

Lemma update_onMutate_found v w l C i E :
  queries w !! "categories" = Some l → arrays w !! l = Some C →
  first_at (updateCategoryMutation.categoryId v) C i E →
  updateCategoryMutation.onMutate v w
  = Some (mkContext (Some l),
          applied l (<[l := <[i := spread E (updateCategoryMutation.updateCategoryDto v)]> C]>
                       (arrays w)) w).
Proof.
  intros Hq Hl Hfirst. unfold updateCategoryMutation.onMutate. rewrite <- Hq.
  apply apply_phase_run. rewrite Hq.
  apply (update_updater_found _ _ (cancelled w)); [exact Hl|exact Hfirst].
Qed.

Lemma update_onMutate_missing v w l C :
  queries w !! "categories" = Some l → arrays w !! l = Some C →
  absent_from (updateCategoryMutation.categoryId v) C →
  updateCategoryMutation.onMutate v w
  = Some (mkContext (Some l),
          applied (length (arrays w)) (arrays w ++ [[]]) w).
Proof.
  intros Hq Hl Habs. unfold updateCategoryMutation.onMutate. rewrite <- Hq.
  apply apply_phase_run. rewrite Hq.
  apply (update_updater_missing _ _ (cancelled w) _ C); [exact Hl|exact Habs].
Qed.

Lemma update_onMutate_absent v w :
  queries w !! "categories" = None →
  updateCategoryMutation.onMutate v w
  = Some (mkContext None, applied (length (arrays w)) (arrays w ++ [[]]) w).
Proof.
  intros Hq. unfold updateCategoryMutation.onMutate. rewrite <- Hq.
  apply apply_phase_run. rewrite Hq. reflexivity.
Qed.

Lemma reposition_onMutate_kept v w l C i E :
  queries w !! "categories" = Some l → arrays w !! l = Some C →
  first_at (repositionCategoryMutation.categoryId v) C i E →
  (repositionCategoryMutation.newPosition v = Z.of_nat i
   ∨ (repositionCategoryMutation.newPosition v >= Z.of_nat (length C))%Z
   ∨ (repositionCategoryMutation.newPosition v < 0)%Z) →
  repositionCategoryMutation.onMutate v w
  = Some (mkContext (Some l), applied l (arrays w) w).
Proof.
  intros Hq Hl Hfirst Hcond. unfold repositionCategoryMutation.onMutate.
  rewrite <- Hq. apply apply_phase_run. rewrite Hq.
  apply (reposition_updater_kept _ _ (cancelled w) _ C i E); assumption.
Qed.

Lemma reposition_onMutate_moved v w l C i E :
  queries w !! "categories" = Some l → arrays w !! l = Some C →
  first_at (repositionCategoryMutation.categoryId v) C i E →
  (0 ≤ repositionCategoryMutation.newPosition v < Z.of_nat (length C))%Z →
  repositionCategoryMutation.newPosition v ≠ Z.of_nat i →
  repositionCategoryMutation.onMutate v w
  = Some (mkContext (Some l),
          applied l
            (<[l := array_splice (repositionCategoryMutation.newPosition v) 0 [E]
                      (array_splice (Z.of_nat i) 1 [] C)]> (arrays w)) w).
Proof.
  intros Hq Hl Hfirst Hrange Hne. unfold repositionCategoryMutation.onMutate.
  rewrite <- Hq. apply apply_phase_run. rewrite Hq.
  apply (reposition_updater_moved _ _ (cancelled w)); assumption.
Qed.

Lemma reposition_onMutate_missing v w l C :
  queries w !! "categories" = Some l → arrays w !! l = Some C →
  absent_from (repositionCategoryMutation.categoryId v) C →
  repositionCategoryMutation.onMutate v w
  = Some (mkContext (Some l), applied l (arrays w) w).
Proof.
  intros Hq Hl Habs. unfold repositionCategoryMutation.onMutate.
  rewrite <- Hq. apply apply_phase_run. rewrite Hq.
  apply (reposition_updater_missing _ _ (cancelled w) _ C); assumption.
Qed.

Lemma reposition_onMutate_absent v w :
  queries w !! "categories" = None →
  repositionCategoryMutation.onMutate v w
  = Some (mkContext None, applied (length (arrays w)) (arrays w ++ [[]]) w).
Proof.
  intros Hq. unfold repositionCategoryMutation.onMutate. rewrite <- Hq.
  apply apply_phase_run. rewrite Hq. reflexivity.
Qed.

Lemma delete_onMutate_present v w l C :
  queries w !! "categories" = Some l → arrays w !! l = Some C →
  deleteCategoryMutation.onMutate v w
  = Some (mkContext (Some l),
          applied (length (arrays w))
            (arrays w ++
             [List.filter
                (λ e, negb (strict_eq (entity_id e) (deleteCategoryMutation.categoryId v)))
                C]) w).
Proof.
  intros Hq Hl. unfold deleteCategoryMutation.onMutate. rewrite <- Hq.
  apply apply_phase_run. rewrite Hq.
  apply (delete_updater_present _ (cancelled w)), Hl.
Qed.

Lemma delete_onMutate_absent v w :
  queries w !! "categories" = None →
  deleteCategoryMutation.onMutate v w
  = Some (mkContext None, applied (length (arrays w)) (arrays w ++ [[]]) w).
Proof.
  intros Hq. unfold deleteCategoryMutation.onMutate. rewrite <- Hq.
  apply apply_phase_run. rewrite Hq. reflexivity.
Qed.

(** ** The error hooks, run *)

Lemma onError_run op err context w :
  CategoryMutations.onError op err context w
  = Some (tt, rolled_back context
                (CategoryMutations.error_prefix op ++ error_suffix err)%string w).
Proof.
  unfold rolled_back.
  destruct op; cbn [CategoryMutations.onError CategoryMutations.error_prefix];
    unfold createCategoryMutation.onError, updateCategoryMutation.onError,
      repositionCategoryMutation.onError, deleteCategoryMutation.onError,
      restore_previous;
    rewrite bind_run; destruct (context_previous context); reflexivity.
Qed.

Lemma cached_Some key w C :
  cached key w = Some C →
  ∃ l, queries w !! key = Some l ∧ arrays w !! l = Some C.
Proof.
  unfold cached. destruct (queries w !! key) as [l|]; [|discriminate].
  intros H. exists l. split; [reflexivity|exact H].
Qed.

(** * The claims *)

(** ** Create *)

(** C7. The create transform synthesizes one optimistic entity from the
    request and appends it to the cached collection, whose elements and
    order are kept; with nothing cached, the collection becomes the
    one-element sequence holding the synthesized entity. *)
Theorem create_appends_optimistic_entity
    (createOptimisticCategory : gmap string JsVal → CategoryEntity)
    (v : createCategoryMutation.createCategoryVariables) (w : World) :
  let optimisticNewCategory :=
    createOptimisticCategory (createCategoryMutation.createCategoryDto v) in
  (∀ C, cached "categories" w = Some C →
     ∃ ctx w',
       createCategoryMutation.onMutate createOptimisticCategory v w = Some (ctx, w')
       ∧ cached "categories" w' = Some (C ++ [optimisticNewCategory]))
  ∧ (queries w !! "categories" = None →
     ∃ ctx w',
       createCategoryMutation.onMutate createOptimisticCategory v w = Some (ctx, w')
       ∧ cached "categories" w' = Some [optimisticNewCategory]).
Proof.
  cbn zeta. split.
  - intros C (l & Hq & Hl)%cached_Some.
    eexists _, _. split; [apply (create_onMutate_present _ _ _ _ _ Hq Hl)|].
    apply cached_applied_fresh.
  - intros Hq. eexists _, _. split; [apply (create_onMutate_absent _ _ _ Hq)|].
    apply cached_applied_fresh.
Qed.

Lemma create_appends_optimistic_entity_witness :
  let v := createCategoryMutation.mkVariables {[ "title" := JStr "D" ]} in
  (∃ ctx w',
     createCategoryMutation.onMutate sample_factory v board_world = Some (ctx, w')
     ∧ cached "categories" w'
       = Some (board ++ [sample_factory {[ "title" := JStr "D" ]}]))
  ∧ (∃ ctx w',
     createCategoryMutation.onMutate sample_factory v blank_world = Some (ctx, w')
     ∧ cached "categories" w' = Some [sample_factory {[ "title" := JStr "D" ]}]).
Proof.
  intros v. split.
  - apply (create_appends_optimistic_entity sample_factory v board_world).
    vm_compute. reflexivity.
  - apply (create_appends_optimistic_entity sample_factory v blank_world).
    vm_compute. reflexivity.
Defined.

(** ** Update *)

(** C5. When the cached collection holds an entity [E] with the target
    identity, the update transform leaves at [E]'s index the shallow merge
    of [E] and the request: the request's fields win and every field the
    request lacks is [E]'s.  When no entity has the target identity, the
    transform yields the empty collection. *)
Theorem update_merge_law
    (v : updateCategoryMutation.updateCategoryVariables)
    (w : World) (C : list CategoryEntity) :
  cached "categories" w = Some C →
  (∀ i E, first_at (updateCategoryMutation.categoryId v) C i E →
     ∃ ctx w' C' E',
       updateCategoryMutation.onMutate v w = Some (ctx, w')
       ∧ cached "categories" w' = Some C'
       ∧ C' !! i = Some E'
       ∧ (∀ k x, updateCategoryMutation.updateCategoryDto v !! k = Some x →
                 E' !! k = Some x)
       ∧ (∀ k, updateCategoryMutation.updateCategoryDto v !! k = None →
               E' !! k = E !! k))
  ∧ (absent_from (updateCategoryMutation.categoryId v) C →
     ∃ ctx w',
       updateCategoryMutation.onMutate v w = Some (ctx, w')
       ∧ cached "categories" w' = Some []).
Proof.
  intros (l & Hq & Hl)%cached_Some. split.
  - intros i E Hfirst.
    eexists _, _, _, _.
    split; [apply (update_onMutate_found _ _ _ _ _ _ Hq Hl Hfirst)|].
    split; [apply cached_applied_inplace; rewrite Hl; eauto|].
    destruct Hfirst as (Hi & _ & _).
    split; [apply list_lookup_insert_eq, (lookup_lt_Some _ _ _ Hi)|].
    unfold spread. split.
    + intros k x Hk. apply lookup_union_Some_l, Hk.
    + intros k Hk. apply lookup_union_r, Hk.
  - intros Habs. eexists _, _.
    split; [apply (update_onMutate_missing _ _ _ _ Hq Hl Habs)|].
    apply cached_applied_fresh.
Qed.

Lemma update_merge_law_witness :
  let v := updateCategoryMutation.mkVariables (JNum 2) {[ "title" := JStr "Z" ]} in
  ∃ ctx w' C' E',
    updateCategoryMutation.onMutate v board_world = Some (ctx, w')
    ∧ cached "categories" w' = Some C'
    ∧ C' !! 1%nat = Some E'
    ∧ (∀ k x, updateCategoryMutation.updateCategoryDto v !! k = Some x →
              E' !! k = Some x)
    ∧ (∀ k, updateCategoryMutation.updateCategoryDto v !! k = None →
            E' !! k = category 2 "B" !! k).
Proof.
  intros v.
  assert (cached "categories" board_world = Some board) as Hc
    by (vm_compute; reflexivity).
  apply (proj1 (update_merge_law v board_world board Hc) 1%nat (category 2 "B")).
  apply (bool_decide_unpack _). vm_compute. exact I.
Defined.

(** C10. When the cached collection holds the target identity at index
    [i], the update transform keeps the length of the collection and the
    element at every index other than [i]. *)
Theorem update_frame
    (v : updateCategoryMutation.updateCategoryVariables)
    (w : World) (C : list CategoryEntity) (i : nat) (E : CategoryEntity) :
  cached "categories" w = Some C →
  first_at (updateCategoryMutation.categoryId v) C i E →
  ∃ ctx w' C',
    updateCategoryMutation.onMutate v w = Some (ctx, w')
    ∧ cached "categories" w' = Some C'
    ∧ length C' = length C
    ∧ ∀ j, j ≠ i → C' !! j = C !! j.
Proof.
  intros (l & Hq & Hl)%cached_Some Hfirst.
  eexists _, _, _.
  split; [apply (update_onMutate_found _ _ _ _ _ _ Hq Hl Hfirst)|].
  split; [apply cached_applied_inplace; rewrite Hl; eauto|].
  split; [apply length_insert|].
  intros j Hj. apply list_lookup_insert_ne. congruence.
Qed.

Lemma update_frame_witness :
  let v := updateCategoryMutation.mkVariables (JNum 2) {[ "title" := JStr "Z" ]} in
  ∃ ctx w' C',
    updateCategoryMutation.onMutate v board_world = Some (ctx, w')
    ∧ cached "categories" w' = Some C'
    ∧ length C' = length board
    ∧ ∀ j, j ≠ 1%nat → C' !! j = board !! j.
Proof.
  intros v.
  apply (update_frame v board_world board 1%nat (category 2 "B")).
  - vm_compute. reflexivity.
  - apply (bool_decide_unpack _). vm_compute. exact I.
Defined.

(** ** Reposition *)

(** C4. With the target identity at index [i] of a cached collection of
    length [N], the reposition transform leaves the collection as it is
    when [newPosition] is [i], is negative, or is at least [N]; for any
    other [newPosition] the moved element ends up exactly at index
    [newPosition] and removing it there gives the original collection
    without index [i], so all other elements keep their relative order.
    When no entity has the target identity the collection is unchanged. *)
Theorem reposition_boundary_behavior
    (v : repositionCategoryMutation.repositionCategoryVariables)
    (w : World) (C : list CategoryEntity) :
  let newPosition := repositionCategoryMutation.newPosition v in
  cached "categories" w = Some C →
  (∀ i E, first_at (repositionCategoryMutation.categoryId v) C i E →
     ((newPosition = Z.of_nat i ∨ (newPosition < 0)%Z
       ∨ (newPosition >= Z.of_nat (length C))%Z) →
      ∃ ctx w',
        repositionCategoryMutation.onMutate v w = Some (ctx, w')
        ∧ cached "categories" w' = Some C)
     ∧ ((0 ≤ newPosition < Z.of_nat (length C))%Z → newPosition ≠ Z.of_nat i →
        ∃ ctx w' C',
          repositionCategoryMutation.onMutate v w = Some (ctx, w')
          ∧ cached "categories" w' = Some C'
          ∧ C' !! Z.to_nat newPosition = Some E
          ∧ delete (Z.to_nat newPosition) C' = delete i C
          ∧ length C' = length C))
  ∧ (absent_from (repositionCategoryMutation.categoryId v) C →
     ∃ ctx w',
       repositionCategoryMutation.onMutate v w = Some (ctx, w')
       ∧ cached "categories" w' = Some C).
Proof.
  intros newPosition Hc. pose proof Hc as (l & Hq & Hl)%cached_Some.
  split; [intros i E Hfirst; split|].
  - intros Hcond. eexists _, _. split.
    + apply (reposition_onMutate_kept _ _ _ _ _ _ Hq Hl Hfirst).
      fold newPosition. tauto.
    + rewrite (cached_applied_same _ _ Hq). exact Hc.
  - intros Hrange Hne. eexists _, _, _.
    split; [apply (reposition_onMutate_moved _ _ _ _ _ _ Hq Hl Hfirst Hrange Hne)|].
    split; [apply cached_applied_inplace; rewrite Hl; eauto|].
    apply moved_shape; [|exact Hrange].
    destruct Hfirst as (Hi & _ & _). apply (lookup_lt_Some _ _ _ Hi).
  - intros Habs. eexists _, _.
    split; [apply (reposition_onMutate_missing _ _ _ _ Hq Hl Habs)|].
    rewrite (cached_applied_same _ _ Hq). exact Hc.
Qed.

Lemma reposition_boundary_behavior_witness :
  let v := repositionCategoryMutation.mkVariables (JNum 3) 0 in
  ∃ ctx w' C',
    repositionCategoryMutation.onMutate v board_world = Some (ctx, w')
    ∧ cached "categories" w' = Some C'
    ∧ C' !! 0%nat = Some (category 3 "C")
    ∧ delete 0%nat C' = delete 2%nat board
    ∧ length C' = length board.
Proof.
  intros v.
  assert (cached "categories" board_world = Some board) as Hc
    by (vm_compute; reflexivity).
  assert (first_at (JNum 3) board 2 (category 3 "C")) as Hfirst
    by (apply (bool_decide_unpack _); vm_compute; exact I).
  apply (proj2 (proj1 (reposition_boundary_behavior v board_world board Hc)
                  2%nat (category 3 "C") Hfirst)).
  - vm_compute. split; [discriminate|reflexivity].
  - vm_compute. discriminate.
Defined.

(** ** Delete *)

(** C6. The delete transform yields a collection that drops exactly the
    elements with the target identity: what is left is the original
    collection with some elements removed and the others in their order,
    none of the kept elements has the target identity, every selection of
    elements without the target identity survives in order, and under
    identity uniqueness at most one element is gone. *)
Theorem delete_exclusivity
    (v : deleteCategoryMutation.deleteCategoryVariables)
    (w : World) (C : list CategoryEntity) :
  let X := deleteCategoryMutation.categoryId v in
  cached "categories" w = Some C →
  ∃ ctx w' C',
    deleteCategoryMutation.onMutate v w = Some (ctx, w')
    ∧ cached "categories" w' = Some C'
    ∧ C' `sublist_of` C
    ∧ (∀ e, e ∈ C' ↔ e ∈ C ∧ entity_id e ≠ X)
    ∧ (∀ K, K `sublist_of` C → Forall (λ e, entity_id e ≠ X) K →
            K `sublist_of` C')
    ∧ (NoDup (entity_id <$> C) → (length C ≤ length C' + 1)%nat).
Proof.
  intros X (l & Hq & Hl)%cached_Some.
  set (keep := λ e : CategoryEntity, negb (strict_eq (entity_id e) X)).
  assert (∀ e, keep e = true ↔ entity_id e ≠ X) as Hkeep.
  { intros e. unfold keep. rewrite negb_true_iff, <- not_true_iff_false.
    apply not_iff_compat, strict_eq_true. }
  eexists (mkContext (Some l)), _, (List.filter keep C).
  split; [apply (delete_onMutate_present _ _ _ _ Hq Hl)|].
  split; [apply cached_applied_fresh|].
  split; [apply filter_sublist|].
  split; [|split].
  - intros e. rewrite list_elem_of_In, filter_In, <- list_elem_of_In, Hkeep.
    tauto.
  - intros K HK Hall. apply filter_keeps_sublists; [exact HK|].
    eapply Forall_impl; [exact Hall|]. intros e. apply Hkeep.
  - intros Hnd.
    pose proof (filter_length_split (λ e, strict_eq (entity_id e) X) C) as Hsplit.
    pose proof (unique_matches_at_most_one X C Hnd) as Hone.
    cbn beta in Hsplit. change (λ x, negb (strict_eq (entity_id x) X)) with keep in Hsplit.
    lia.
Qed.

Lemma delete_exclusivity_witness :
  let v := deleteCategoryMutation.mkVariables (JNum 2) in
  ∃ ctx w' C',
    deleteCategoryMutation.onMutate v board_world = Some (ctx, w')
    ∧ cached "categories" w' = Some C'
    ∧ C' `sublist_of` board
    ∧ (∀ e, e ∈ C' ↔ e ∈ board ∧ entity_id e ≠ JNum 2)
    ∧ (∀ K, K `sublist_of` board → Forall (λ e, entity_id e ≠ JNum 2) K →
            K `sublist_of` C')
    ∧ (NoDup (entity_id <$> board) → (length board ≤ length C' + 1)%nat).
Proof.
  intros v. apply (delete_exclusivity v board_world board).
  vm_compute. reflexivity.
Defined.

(** ** Identity-targeted operations on an empty cache *)

(** C9. When nothing is cached under the key, the transforms of update,
    reposition and delete install the empty collection: afterwards the key
    holds a present, empty collection. *)
Theorem identity_targeted_installs_empty
    (createOptimisticCategory : gmap string JsVal → CategoryEntity)
    (op : CategoryMutations.Operation) (w : World) :
  identity_targeted op →
  queries w !! "categories" = None →
  ∃ ctx w',
    CategoryMutations.onMutate createOptimisticCategory op w = Some (ctx, w')
    ∧ is_Some (queries w' !! "categories")
    ∧ cached "categories" w' = Some [].
Proof.
  intros Hop Hq. destruct op as [v|v|v|v]; [destruct Hop| | |];
    cbn [CategoryMutations.onMutate]; eexists _, _.
  - split; [apply (update_onMutate_absent _ _ Hq)|].
    split; [|apply cached_applied_fresh].
    cbn. rewrite lookup_insert_eq. eauto.
  - split; [apply (reposition_onMutate_absent _ _ Hq)|].
    split; [|apply cached_applied_fresh].
    cbn. rewrite lookup_insert_eq. eauto.
  - split; [apply (delete_onMutate_absent _ _ Hq)|].
    split; [|apply cached_applied_fresh].
    cbn. rewrite lookup_insert_eq. eauto.
Qed.

Lemma identity_targeted_installs_empty_witness :
  let op := CategoryMutations.Delete (deleteCategoryMutation.mkVariables (JNum 2)) in
  ∃ ctx w',
    CategoryMutations.onMutate sample_factory op blank_world = Some (ctx, w')
    ∧ is_Some (queries w' !! "categories")
    ∧ cached "categories" w' = Some [].
Proof.
  intros op.
  apply (identity_targeted_installs_empty sample_factory op blank_world).
  - exact I.
  - vm_compute. reflexivity.
Defined.

(** ** The error branch *)

(** C8. The error hook of every operation, whatever the context, emits
    exactly one error notification and touches no array: the message names
    the Category and ends with a line break and the rendering of the error
    value exactly when that value is truthy.  With a snapshot in the
    context the hook puts the snapshot's array back under the key as it
    stands; without one it leaves the cache as it is. *)
Theorem error_branch_restores_and_notifies
    (op : CategoryMutations.Operation) (err : JsErr)
    (context : option Context) (w : World) :
  ∃ w' message,
    CategoryMutations.onError op err context w = Some (tt, w')
    ∧ arrays w' = arrays w
    ∧ effects w' = effects w ++ [ToastError message]
    ∧ str_infix "Category" message
    ∧ (err_truthy err = true →
       message = (CategoryMutations.error_prefix op
                  ++ String "010"%char (err_String err))%string)
    ∧ (err_truthy err = false → message = CategoryMutations.error_prefix op)
    ∧ (∀ previous, context_previous context = Some previous →
         queries w' !! "categories" = Some previous
         ∧ cached "categories" w' = arrays w !! previous)
    ∧ (context_previous context = None → queries w' = queries w).
Proof.
  eexists _, _. split; [apply onError_run|].
  unfold rolled_back. cbn [arrays queries effects].
  split; [reflexivity|]. split; [reflexivity|].
  unfold error_suffix. split; [|split; [|split; [|split]]].
  - destruct op; cbn [CategoryMutations.error_prefix].
    + exists "An error occurred while creating a new "%string. eexists. reflexivity.
    + exists "An error occurred while updating "%string. eexists. reflexivity.
    + exists "An error occurred while repositioning "%string. eexists. reflexivity.
    + exists "An error occurred while deleting the "%string. eexists. reflexivity.
  - intros ->. reflexivity.
  - intros ->. destruct op; reflexivity.
  - intros previous ->. split; [apply lookup_insert_eq|].
    unfold cached. cbn. rewrite lookup_insert_eq. reflexivity.
  - intros ->. reflexivity.
Qed.

Lemma error_branch_restores_and_notifies_witness :
  let op := CategoryMutations.Reposition
              (repositionCategoryMutation.mkVariables (JNum 3) 0) in
  ∃ w' message,
    CategoryMutations.onError op network_error (Some (mkContext (Some 0%nat)))
      board_world = Some (tt, w')
    ∧ arrays w' = arrays board_world
    ∧ effects w' = effects board_world ++ [ToastError message]
    ∧ str_infix "Category" message
    ∧ message = (CategoryMutations.error_prefix op
                 ++ String "010"%char (err_String network_error))%string
    ∧ queries w' !! "categories" = Some 0%nat
    ∧ cached "categories" w' = arrays board_world !! 0%nat.
Proof.
  intros op.
  destruct (error_branch_restores_and_notifies op network_error
              (Some (mkContext (Some 0%nat))) board_world)
    as (w' & message & Hrun & Harrays & Heffects & Hnames & Htruthy & _
        & Hrestore & _).
  exists w', message.
  split; [exact Hrun|]. split; [exact Harrays|]. split; [exact Heffects|].
  split; [exact Hnames|]. split; [apply Htruthy; reflexivity|].
  apply (Hrestore 0%nat). reflexivity.
Defined.

(** C2, as the code has it.  When nothing is cached under the key, the
    captured [previousCategories] is absent and the error hook leaves the
    cache and the arrays as the speculative transform left them: the key
    then holds the empty collection after update, reposition and delete,
    and the one-element collection with the optimistic entity after
    create. *)
Theorem rollback_without_snapshot
    (createOptimisticCategory : gmap string JsVal → CategoryEntity)
    (op : CategoryMutations.Operation) (err : JsErr) (w : World) :
  queries w !! "categories" = None →
  ∃ ctx w1 w2,
    CategoryMutations.onMutate createOptimisticCategory op w = Some (ctx, w1)
    ∧ previousCategories ctx = None
    ∧ CategoryMutations.onError op err (Some ctx) w1 = Some (tt, w2)
    ∧ queries w2 = queries w1
    ∧ arrays w2 = arrays w1
    ∧ cached "categories" w2
      = Some match op with
             | CategoryMutations.Create v =>
                 [createOptimisticCategory
                    (createCategoryMutation.createCategoryDto v)]
             | _ => []
             end.
Proof.
  intros Hq. destruct op as [v|v|v|v]; cbn [CategoryMutations.onMutate];
    eexists _, _, _.
  - split; [apply (create_onMutate_absent _ _ _ Hq)|].
    split; [reflexivity|]. split; [apply onError_run|].
    split; [reflexivity|]. split; [reflexivity|]. apply cached_applied_fresh.
  - split; [apply (update_onMutate_absent _ _ Hq)|].
    split; [reflexivity|]. split; [apply onError_run|].
    split; [reflexivity|]. split; [reflexivity|]. apply cached_applied_fresh.
  - split; [apply (reposition_onMutate_absent _ _ Hq)|].
    split; [reflexivity|]. split; [apply onError_run|].
    split; [reflexivity|]. split; [reflexivity|]. apply cached_applied_fresh.
  - split; [apply (delete_onMutate_absent _ _ Hq)|].
    split; [reflexivity|]. split; [apply onError_run|].
    split; [reflexivity|]. split; [reflexivity|]. apply cached_applied_fresh.
Qed.

Lemma rollback_without_snapshot_witness :
  let v := createCategoryMutation.mkVariables {[ "title" := JStr "D" ]} in
  ∃ ctx w1 w2,
    CategoryMutations.onMutate sample_factory (CategoryMutations.Create v)
      blank_world = Some (ctx, w1)
    ∧ previousCategories ctx = None
    ∧ CategoryMutations.onError (CategoryMutations.Create v) network_error
        (Some ctx) w1 = Some (tt, w2)
    ∧ queries w2 = queries w1
    ∧ arrays w2 = arrays w1
    ∧ cached "categories" w2
      = Some [sample_factory (createCategoryMutation.createCategoryDto v)].
Proof.
  intros v.
  apply (rollback_without_snapshot sample_factory (CategoryMutations.Create v)
           network_error blank_world).
  vm_compute. reflexivity.
Defined.

(** C2 as stated fails for create: starting from nothing cached, a failed
    create leaves the optimistic entity in the cache after the error hook. *)
Lemma failed_create_on_empty_cache_keeps_entity :
  let v := createCategoryMutation.mkVariables {[ "title" := JStr "D" ]} in
  queries blank_world !! "categories" = None
  ∧ ∃ w2,
      CategoryMutations.mutate_then_fail sample_factory
        (CategoryMutations.Create v) network_error blank_world = Some (tt, w2)
      ∧ cached "categories" w2 = Some [sample_factory {[ "title" := JStr "D" ]}]
      ∧ cached "categories" w2 ≠ None
      ∧ cached "categories" w2 ≠ Some [].
Proof.
  intros v. split; [vm_compute; reflexivity|].
  eexists. split; [vm_compute; reflexivity|].
  split; [vm_compute; reflexivity|].
  split; vm_compute; discriminate.
Qed.

(** ** Settlement *)

Lemma located_or_absent categoryId C :
  (∃ i E, first_at categoryId C i E) ∨ absent_from categoryId C.
Proof.
  destruct (list_find (λ e, entity_id e = categoryId) C) as [[i E]|] eqn:Hfind.
  - left. exists i, E. apply list_find_Some in Hfind as (Hi & Hid & Hbefore).
    split; [exact Hi|]. split; [exact Hid|].
    apply Forall_forall. intros e [j Hj]%list_elem_of_lookup.
    assert (j < i)%nat as Hlt.
    { apply lookup_lt_Some in Hj. rewrite length_take in Hj. lia. }
    rewrite lookup_take_lt in Hj by exact Hlt. exact (Hbefore j e Hj Hlt).
  - right. apply list_find_None in Hfind. exact Hfind.
Qed.

(** On a well-formed world every pre-mutation hook returns, having
    cancelled refetches and installed some array. *)
Lemma onMutate_returns
    (createOptimisticCategory : gmap string JsVal → CategoryEntity)
    (op : CategoryMutations.Operation) (w : World) :
  well_formed w →
  ∃ data h,
    CategoryMutations.onMutate createOptimisticCategory op w
    = Some (mkContext (queries w !! "categories"), applied data h w).
Proof.
  intros Hwf. unfold well_formed in Hwf.
  destruct (queries w !! "categories") as [l|] eqn:Hq.
  - destruct (Hwf l eq_refl) as [C Hl].
    destruct op as [v|v|v|v]; cbn [CategoryMutations.onMutate].
    + eexists _, _. apply (create_onMutate_present _ _ _ _ _ Hq Hl).
    + destruct (located_or_absent (updateCategoryMutation.categoryId v) C)
        as [(i & E & Hfirst)|Habs]; eexists _, _.
      * apply (update_onMutate_found _ _ _ _ _ _ Hq Hl Hfirst).
      * apply (update_onMutate_missing _ _ _ _ Hq Hl Habs).
    + destruct (located_or_absent (repositionCategoryMutation.categoryId v) C)
        as [(i & E & Hfirst)|Habs].
      * destruct (decide (repositionCategoryMutation.newPosition v = Z.of_nat i
                          ∨ (repositionCategoryMutation.newPosition v
                             >= Z.of_nat (length C))%Z
                          ∨ (repositionCategoryMutation.newPosition v < 0)%Z))
          as [Hkept|Hmoved]; eexists _, _.
        -- apply (reposition_onMutate_kept _ _ _ _ _ _ Hq Hl Hfirst Hkept).
        -- apply (reposition_onMutate_moved _ _ _ _ _ _ Hq Hl Hfirst); lia.
      * eexists _, _. apply (reposition_onMutate_missing _ _ _ _ Hq Hl Habs).
    + eexists _, _. apply (delete_onMutate_present _ _ _ _ Hq Hl).
  - destruct op as [v|v|v|v]; cbn [CategoryMutations.onMutate]; eexists _, _.
    + apply (create_onMutate_absent _ _ _ Hq).
    + apply (update_onMutate_absent _ _ Hq).
    + apply (reposition_onMutate_absent _ _ Hq).
    + apply (delete_onMutate_absent _ _ Hq).
Qed.

Lemma onSuccess_run op data w :
  ∃ message,
    CategoryMutations.onSuccess op data w
    = Some (tt, mkWorld (arrays w) (queries w) (effects w ++ [ToastSuccess message])).
Proof. destruct op; eexists; reflexivity. Qed.

Lemma onSettled_run op w :
  CategoryMutations.onSettled op w
  = Some (tt, mkWorld (arrays w) (queries w)
                (effects w ++ [InvalidateQueries "categories"])).
Proof. destruct op; reflexivity. Qed.

(** C3. One invocation of any of the four operations, whether the
    transport call resolves or rejects, performs exactly one invalidation
    of ['categories'], and performs it after the success or error
    notification: the effects of the invocation are the cancellation, one
    notification, then the invalidation, and nothing else. *)
Theorem settlement_invariant
    (createOptimisticCategory : gmap string JsVal → CategoryEntity)
    (op : CategoryMutations.Operation) (outcome : CategoryMutations.Outcome)
    (w : World) :
  well_formed w →
  ∃ w' notification,
    CategoryMutations.mutate createOptimisticCategory op outcome w = Some (tt, w')
    ∧ effects w'
      = effects w ++ [CancelQueries "categories"; notification;
                      InvalidateQueries "categories"]
    ∧ match outcome with
      | CategoryMutations.Resolved _ => ∃ message, notification = ToastSuccess message
      | CategoryMutations.Rejected _ => ∃ message, notification = ToastError message
      end.
Proof.
  intros Hwf.
  destruct (onMutate_returns createOptimisticCategory op w Hwf) as (data & h & Hrun).
  unfold CategoryMutations.mutate. rewrite (bind_run_Some _ _ _ _ _ Hrun).
  destruct outcome as [result|err].
  - destruct (onSuccess_run op result (applied data h w)) as [message Hok].
    rewrite (bind_run_Some _ _ _ _ _ Hok), onSettled_run.
    eexists _, (ToastSuccess message). split; [reflexivity|].
    cbn [effects applied]. rewrite <- !app_assoc. split; [reflexivity|eauto].
  - rewrite (bind_run_Some _ _ _ _ _ (onError_run op err _ _)), onSettled_run.
    eexists _, (ToastError _). split; [reflexivity|].
    cbn [effects applied rolled_back]. rewrite <- !app_assoc.
    split; [reflexivity|eauto].
Qed.

Lemma settlement_invariant_witness :
  let op := CategoryMutations.Reposition
              (repositionCategoryMutation.mkVariables (JNum 3) 0) in
  ∃ w' notification,
    CategoryMutations.mutate sample_factory op
      (CategoryMutations.Rejected network_error) board_world = Some (tt, w')
    ∧ effects w'
      = effects board_world ++ [CancelQueries "categories"; notification;
                                InvalidateQueries "categories"]
    ∧ ∃ message, notification = ToastError message.
Proof.
  intros op.
  apply (settlement_invariant sample_factory op
           (CategoryMutations.Rejected network_error) board_world).
  intros l Hl. vm_compute in Hl. injection Hl as <-. vm_compute. eauto.
Defined.

(** ** Rollback *)

(** X5. A failed update of a cached entity: the error hook puts back the
    array it captured, which is the array the transform wrote into, so the
    edit stays visible. *)
Lemma failed_update_keeps_edit
    (createOptimisticCategory : gmap string JsVal → CategoryEntity)
    (v : updateCategoryMutation.updateCategoryVariables) (err : JsErr)
    (w : World) (C : list CategoryEntity) (i : nat) (E : CategoryEntity) :
  cached "categories" w = Some C →
  first_at (updateCategoryMutation.categoryId v) C i E →
  ∃ w',
    CategoryMutations.mutate_then_fail createOptimisticCategory
      (CategoryMutations.Update v) err w = Some (tt, w')
    ∧ cached "categories" w'
      = Some (<[i := spread E (updateCategoryMutation.updateCategoryDto v)]> C).
Proof.
  intros (l & Hq & Hl)%cached_Some Hfirst.
  unfold CategoryMutations.mutate_then_fail. cbn [CategoryMutations.onMutate].
  rewrite (bind_run_Some _ _ _ _ _ (update_onMutate_found _ _ _ _ _ _ Hq Hl Hfirst)).
  rewrite onError_run. eexists. split; [reflexivity|].
  unfold cached, rolled_back. cbn. rewrite lookup_insert_eq. cbn.
  apply list_lookup_insert_eq, (lookup_lt_Some _ _ _ Hl).
Qed.

Lemma failed_update_keeps_edit_witness :
  let v := updateCategoryMutation.mkVariables (JNum 2) {[ "title" := JStr "Z" ]} in
  ∃ w',
    CategoryMutations.mutate_then_fail sample_factory
      (CategoryMutations.Update v) network_error board_world = Some (tt, w')
    ∧ cached "categories" w'
      = Some (<[1%nat := spread (category 2 "B") {[ "title" := JStr "Z" ]}]> board).
Proof.
  intros v.
  apply (failed_update_keeps_edit sample_factory v network_error board_world
           board 1%nat (category 2 "B")).
  - vm_compute. reflexivity.
  - apply (bool_decide_unpack _). vm_compute. exact I.
Defined.

(** X6. A failed move, likewise: both splices went into the captured
    array, so after the error hook the cache still shows the moved
    order. *)
Lemma failed_reposition_keeps_move
    (createOptimisticCategory : gmap string JsVal → CategoryEntity)
    (v : repositionCategoryMutation.repositionCategoryVariables) (err : JsErr)
    (w : World) (C : list CategoryEntity) (i : nat) (E : CategoryEntity) :
  cached "categories" w = Some C →
  first_at (repositionCategoryMutation.categoryId v) C i E →
  (0 ≤ repositionCategoryMutation.newPosition v < Z.of_nat (length C))%Z →
  repositionCategoryMutation.newPosition v ≠ Z.of_nat i →
  ∃ w',
    CategoryMutations.mutate_then_fail createOptimisticCategory
      (CategoryMutations.Reposition v) err w = Some (tt, w')
    ∧ cached "categories" w'
      = Some (array_splice (repositionCategoryMutation.newPosition v) 0 [E]
                (array_splice (Z.of_nat i) 1 [] C)).
Proof.
  intros (l & Hq & Hl)%cached_Some Hfirst Hrange Hne.
  unfold CategoryMutations.mutate_then_fail. cbn [CategoryMutations.onMutate].
  rewrite (bind_run_Some _ _ _ _ _
             (reposition_onMutate_moved _ _ _ _ _ _ Hq Hl Hfirst Hrange Hne)).
  rewrite onError_run. eexists. split; [reflexivity|].
  unfold cached, rolled_back. cbn. rewrite lookup_insert_eq. cbn.
  apply list_lookup_insert_eq, (lookup_lt_Some _ _ _ Hl).
Qed.

Lemma failed_reposition_keeps_move_witness :
  let v := repositionCategoryMutation.mkVariables (JNum 1) 2 in
  ∃ w',
    CategoryMutations.mutate_then_fail sample_factory
      (CategoryMutations.Reposition v) network_error board_world = Some (tt, w')
    ∧ cached "categories" w'
      = Some (array_splice 2 0 [category 1 "A"] (array_splice 0 1 [] board)).
Proof.
  intros v.
  apply (failed_reposition_keeps_move sample_factory v network_error board_world
           board 0%nat (category 1 "A")).
  - vm_compute. reflexivity.
  - apply (bool_decide_unpack _). vm_compute. exact I.
  - vm_compute. split; [discriminate|reflexivity].
  - vm_compute. discriminate.
Defined.

(** A failed create or delete: the transform built a new array, so the
    captured one is intact and the error hook shows it again. *)
Lemma failed_create_restores
    (createOptimisticCategory : gmap string JsVal → CategoryEntity)
    (v : createCategoryMutation.createCategoryVariables) (err : JsErr)
    (w : World) (C : list CategoryEntity) :
  cached "categories" w = Some C →
  ∃ w',
    CategoryMutations.mutate_then_fail createOptimisticCategory
      (CategoryMutations.Create v) err w = Some (tt, w')
    ∧ cached "categories" w' = Some C.
Proof.
  intros (l & Hq & Hl)%cached_Some.
  unfold CategoryMutations.mutate_then_fail. cbn [CategoryMutations.onMutate].
  rewrite (bind_run_Some _ _ _ _ _ (create_onMutate_present _ _ _ _ _ Hq Hl)).
  rewrite onError_run. eexists. split; [reflexivity|].
  unfold cached, rolled_back. cbn. rewrite lookup_insert_eq. cbn.
  rewrite lookup_app_l by (apply (lookup_lt_Some _ _ _ Hl)). exact Hl.
Qed.

Lemma failed_delete_restores
    (createOptimisticCategory : gmap string JsVal → CategoryEntity)
    (v : deleteCategoryMutation.deleteCategoryVariables) (err : JsErr)
    (w : World) (C : list CategoryEntity) :
  cached "categories" w = Some C →
  ∃ w',
    CategoryMutations.mutate_then_fail createOptimisticCategory
      (CategoryMutations.Delete v) err w = Some (tt, w')
    ∧ cached "categories" w' = Some C.
Proof.
  intros (l & Hq & Hl)%cached_Some.
  unfold CategoryMutations.mutate_then_fail. cbn [CategoryMutations.onMutate].
  rewrite (bind_run_Some _ _ _ _ _ (delete_onMutate_present _ _ _ _ Hq Hl)).
  rewrite onError_run. eexists. split; [reflexivity|].
  unfold cached, rolled_back. cbn. rewrite lookup_insert_eq. cbn.
  rewrite lookup_app_l by (apply (lookup_lt_Some _ _ _ Hl)). exact Hl.
Qed.

(** C1, evaluated on the scenario of section 8.  Repositioning the third
    category to the front and then failing does not bring back the order
    [A, B, C]: [previousCategories] is the cached array itself, the two
    splices rewrote it in place, and the error hook installs that same
    array again. *)
Theorem failed_reposition_is_not_rolled_back :
  let op := CategoryMutations.Reposition
              (repositionCategoryMutation.mkVariables (JNum 3) 0) in
  cached "categories" board_world
  = Some [category 1 "A"; category 2 "B"; category 3 "C"]
  ∧ ∃ w',
      CategoryMutations.mutate_then_fail sample_factory op network_error
        board_world = Some (tt, w')
      ∧ cached "categories" w'
        = Some [category 3 "C"; category 1 "A"; category 2 "B"]
      ∧ cached "categories" w' ≠ cached "categories" board_world.
Proof.
  intros op. split; [vm_compute; reflexivity|].
  eexists. split; [vm_compute; reflexivity|].
  split; [vm_compute; reflexivity|].
  vm_compute. discriminate.
Qed.

(** * Further properties of the hooks *)

(** ** What a pre-mutation hook may do to the heap *)

(** The array installed by a pre-mutation hook is either a new array at the
    end of the heap, or the array that was cached, rewritten in place or
    left alone. *)
Lemma onMutate_shape
    (createOptimisticCategory : gmap string JsVal → CategoryEntity)
    (op : CategoryMutations.Operation) (w : World) :
  well_formed w →
  ∃ data h,
    CategoryMutations.onMutate createOptimisticCategory op w
    = Some (mkContext (queries w !! "categories"), applied data h w)
    ∧ ((∃ a, data = length (arrays w) ∧ h = arrays w ++ [a])
       ∨ (∃ a, queries w !! "categories" = Some data
               ∧ is_Some (arrays w !! data)
               ∧ h = <[data := a]> (arrays w))).
Proof.
  intros Hwf. unfold well_formed in Hwf.
  destruct (queries w !! "categories") as [l|] eqn:Hq.
  - destruct (Hwf l eq_refl) as [C Hl].
    assert (is_Some (arrays w !! l)) as Hsome by (rewrite Hl; eauto).
    destruct op as [v|v|v|v]; cbn [CategoryMutations.onMutate].
    + eexists _, _. split; [apply (create_onMutate_present _ _ _ _ _ Hq Hl)|].
      left. eauto.
    + destruct (located_or_absent (updateCategoryMutation.categoryId v) C)
        as [(i & E & Hfirst)|Habs]; eexists _, _.
      * split; [apply (update_onMutate_found _ _ _ _ _ _ Hq Hl Hfirst)|].
        right. eauto.
      * split; [apply (update_onMutate_missing _ _ _ _ Hq Hl Habs)|].
        left. eauto.
    + destruct (located_or_absent (repositionCategoryMutation.categoryId v) C)
        as [(i & E & Hfirst)|Habs].
      * destruct (decide (repositionCategoryMutation.newPosition v = Z.of_nat i
                          ∨ (repositionCategoryMutation.newPosition v
                             >= Z.of_nat (length C))%Z
                          ∨ (repositionCategoryMutation.newPosition v < 0)%Z))
          as [Hkept|Hmoved]; eexists _, _.
        -- split; [apply (reposition_onMutate_kept _ _ _ _ _ _ Hq Hl Hfirst Hkept)|].
           right. exists C. rewrite (list_insert_id _ _ _ Hl). eauto.
        -- split; [apply (reposition_onMutate_moved _ _ _ _ _ _ Hq Hl Hfirst); lia|].
           right. eauto.
      * eexists _, _.
        split; [apply (reposition_onMutate_missing _ _ _ _ Hq Hl Habs)|].
        right. exists C. rewrite (list_insert_id _ _ _ Hl). eauto.
    + eexists _, _. split; [apply (delete_onMutate_present _ _ _ _ Hq Hl)|].
      left. eauto.
  - destruct op as [v|v|v|v]; cbn [CategoryMutations.onMutate]; eexists _, _.
    + split; [apply (create_onMutate_absent _ _ _ Hq)|]. left. eauto.
    + split; [apply (update_onMutate_absent _ _ Hq)|]. left. eauto.
    + split; [apply (reposition_onMutate_absent _ _ Hq)|]. left. eauto.
    + split; [apply (delete_onMutate_absent _ _ Hq)|]. left. eauto.
Qed.

(** The world a whole invocation ends in, given what its pre-mutation hook
    installed. *)
Lemma mutate_run
    (createOptimisticCategory : gmap string JsVal → CategoryEntity)
    (op : CategoryMutations.Operation) (outcome : CategoryMutations.Outcome)
    (w : World) data h :
  CategoryMutations.onMutate createOptimisticCategory op w
  = Some (mkContext (queries w !! "categories"), applied data h w) →
  ∃ w',
    CategoryMutations.mutate createOptimisticCategory op outcome w = Some (tt, w')
    ∧ arrays w' = h
    ∧ queries w'
      = match outcome, queries w !! "categories" with
        | CategoryMutations.Rejected _, Some previous =>
            <["categories" := previous]> (<["categories" := data]> (queries w))
        | _, _ => <["categories" := data]> (queries w)
        end.
Proof.
  intros Hrun. unfold CategoryMutations.mutate.
  rewrite (bind_run_Some _ _ _ _ _ Hrun). destruct outcome as [result|err].
  - destruct (onSuccess_run op result (applied data h w)) as [message Hok].
    rewrite (bind_run_Some _ _ _ _ _ Hok), onSettled_run.
    eexists. split; [reflexivity|]. split; reflexivity.
  - rewrite (bind_run_Some _ _ _ _ _ (onError_run op err _ _)), onSettled_run.
    eexists. split; [reflexivity|]. split; [reflexivity|].
    cbn. destruct (queries w !! "categories"); reflexivity.
Qed.

(** X1. A whole invocation, resolved or rejected, writes the cache under
    ['categories'] only: every other query key keeps its entry, no array
    is removed from the heap, and every array other than the one that was
    cached under ['categories'] keeps its elements. *)
Theorem invocation_frame
    (createOptimisticCategory : gmap string JsVal → CategoryEntity)
    (op : CategoryMutations.Operation) (outcome : CategoryMutations.Outcome)
    (w : World) :
  well_formed w →
  ∃ w',
    CategoryMutations.mutate createOptimisticCategory op outcome w = Some (tt, w')
    ∧ (∀ key, key ≠ "categories" → queries w' !! key = queries w !! key)
    ∧ (length (arrays w) ≤ length (arrays w'))%nat
    ∧ (∀ l a, queries w !! "categories" ≠ Some l →
              arrays w !! l = Some a → arrays w' !! l = Some a).
Proof.
  intros Hwf.
  destruct (onMutate_shape createOptimisticCategory op w Hwf)
    as (data & h & Hrun & Hshape).
  destruct (mutate_run _ _ outcome _ _ _ Hrun) as (w' & Hmut & Harr & Hqs).
  exists w'. split; [exact Hmut|]. rewrite Harr, Hqs. split; [|split].
  - intros key Hkey.
    destruct outcome, (queries w !! "categories");
      rewrite ?lookup_insert_ne by congruence; reflexivity.
  - destruct Hshape as [(a & _ & ->)|(a & _ & _ & ->)].
    + rewrite length_app. lia.
    + rewrite length_insert. lia.
  - intros l a Hnot Hl.
    destruct Hshape as [(b & _ & ->)|(b & Hq & _ & ->)].
    + rewrite lookup_app_l by (apply (lookup_lt_Some _ _ _ Hl)). exact Hl.
    + rewrite list_lookup_insert_ne by congruence. exact Hl.
Qed.

Lemma invocation_frame_witness :
  let op := CategoryMutations.Update
              (updateCategoryMutation.mkVariables (JNum 2) {[ "title" := JStr "Z" ]}) in
  ∃ w',
    CategoryMutations.mutate sample_factory op
      (CategoryMutations.Rejected network_error) board_world = Some (tt, w')
    ∧ (∀ key, key ≠ "categories" → queries w' !! key = queries board_world !! key)
    ∧ (length (arrays board_world) ≤ length (arrays w'))%nat
    ∧ (∀ l a, queries board_world !! "categories" ≠ Some l →
              arrays board_world !! l = Some a → arrays w' !! l = Some a).
Proof.
  intros op.
  apply (invocation_frame sample_factory op
           (CategoryMutations.Rejected network_error) board_world).
  intros l Hl. vm_compute in Hl. injection Hl as <-. vm_compute. eauto.
Defined.

(** X2. After a whole invocation, resolved or rejected, the key
    ['categories'] holds a collection: the cache entry is never left
    absent, and the world is again one in which any further invocation
    returns. *)
Theorem invocation_leaves_collection
    (createOptimisticCategory : gmap string JsVal → CategoryEntity)
    (op : CategoryMutations.Operation) (outcome : CategoryMutations.Outcome)
    (w : World) :
  well_formed w →
  ∃ w',
    CategoryMutations.mutate createOptimisticCategory op outcome w = Some (tt, w')
    ∧ is_Some (cached "categories" w')
    ∧ well_formed w'.
Proof.
  intros Hwf.
  destruct (onMutate_shape createOptimisticCategory op w Hwf)
    as (data & h & Hrun & Hshape).
  destruct (mutate_run _ _ outcome _ _ _ Hrun) as (w' & Hmut & Harr & Hqs).
  exists w'. split; [exact Hmut|].
  assert (is_Some (h !! data)) as Hdata.
  { destruct Hshape as [(a & -> & ->)|(a & _ & Hsome & ->)].
    - rewrite lookup_alloc. eauto.
    - apply lookup_lt_is_Some. rewrite length_insert.
      apply lookup_lt_is_Some, Hsome. }
  assert (∀ l, queries w !! "categories" = Some l → is_Some (h !! l)) as Hprev.
  { intros l Hl. pose proof (Hwf l Hl) as Hsome%lookup_lt_is_Some.
    apply lookup_lt_is_Some.
    destruct Hshape as [(a & _ & ->)|(a & _ & _ & ->)].
    - rewrite length_app. lia.
    - rewrite length_insert. exact Hsome. }
  assert (is_Some (cached "categories" w')) as Hcached.
  { unfold cached. rewrite Harr, Hqs.
    destruct outcome as [result|err];
      [|destruct (queries w !! "categories") as [l|] eqn:Hq];
      rewrite lookup_insert_eq; cbn; auto. }
  split; [exact Hcached|].
  intros l Hl. unfold cached in Hcached. rewrite Hl in Hcached. exact Hcached.
Qed.

Lemma invocation_leaves_collection_witness :
  let op := CategoryMutations.Delete (deleteCategoryMutation.mkVariables (JNum 2)) in
  ∃ w',
    CategoryMutations.mutate sample_factory op
      (CategoryMutations.Rejected network_error) blank_world = Some (tt, w')
    ∧ is_Some (cached "categories" w')
    ∧ well_formed w'.
Proof.
  intros op.
  apply (invocation_leaves_collection sample_factory op
           (CategoryMutations.Rejected network_error) blank_world).
  intros l Hl. vm_compute in Hl. discriminate Hl.
Defined.

(** X3. When the transport call resolves, the success and settlement
    hooks write neither the cache nor any array: the cache keeps exactly
    what the speculative transform installed, whatever entity or receipt
    the transport call resolved with. *)
Theorem success_keeps_speculative_state
    (createOptimisticCategory : gmap string JsVal → CategoryEntity)
    (op : CategoryMutations.Operation) (data : gmap string JsVal) (w : World) :
  well_formed w →
  ∃ ctx w1 w',
    CategoryMutations.onMutate createOptimisticCategory op w = Some (ctx, w1)
    ∧ CategoryMutations.mutate createOptimisticCategory op
        (CategoryMutations.Resolved data) w = Some (tt, w')
    ∧ queries w' = queries w1
    ∧ arrays w' = arrays w1
    ∧ cached "categories" w' = cached "categories" w1.
Proof.
  intros Hwf.
  destruct (onMutate_shape createOptimisticCategory op w Hwf)
    as (d & h & Hrun & _).
  destruct (mutate_run _ _ (CategoryMutations.Resolved data) _ _ _ Hrun)
    as (w' & Hmut & Harr & Hqs).
  eexists _, _, w'. split; [exact Hrun|]. split; [exact Hmut|].
  cbn in Hqs. unfold cached. rewrite Harr, Hqs. cbn. auto.
Qed.

Lemma success_keeps_speculative_state_witness :
  let op := CategoryMutations.Create
              (createCategoryMutation.mkVariables {[ "title" := JStr "D" ]}) in
  ∃ ctx w1 w',
    CategoryMutations.onMutate sample_factory op board_world = Some (ctx, w1)
    ∧ CategoryMutations.mutate sample_factory op
        (CategoryMutations.Resolved (category 4 "D")) board_world = Some (tt, w')
    ∧ queries w' = queries w1
    ∧ arrays w' = arrays w1
    ∧ cached "categories" w' = cached "categories" w1.
Proof.
  intros op.
  apply (success_keeps_speculative_state sample_factory op (category 4 "D")
           board_world).
  intros l Hl. vm_compute in Hl. injection Hl as <-. vm_compute. eauto.
Defined.

(** ** Rollback where it works *)

Lemma failed_update_of_missing_restores
    (createOptimisticCategory : gmap string JsVal → CategoryEntity)
    (v : updateCategoryMutation.updateCategoryVariables) (err : JsErr)
    (w : World) (C : list CategoryEntity) :
  cached "categories" w = Some C →
  absent_from (updateCategoryMutation.categoryId v) C →
  ∃ w',
    CategoryMutations.mutate_then_fail createOptimisticCategory
      (CategoryMutations.Update v) err w = Some (tt, w')
    ∧ cached "categories" w' = Some C.
Proof.
  intros (l & Hq & Hl)%cached_Some Habs.
  unfold CategoryMutations.mutate_then_fail. cbn [CategoryMutations.onMutate].
  rewrite (bind_run_Some _ _ _ _ _ (update_onMutate_missing _ _ _ _ Hq Hl Habs)).
  rewrite onError_run. eexists. split; [reflexivity|].
  unfold cached, rolled_back. cbn. rewrite lookup_insert_eq. cbn.
  rewrite lookup_app_l by (apply (lookup_lt_Some _ _ _ Hl)). exact Hl.
Qed.

Lemma failed_reposition_unmoved_restores
    (createOptimisticCategory : gmap string JsVal → CategoryEntity)
    (v : repositionCategoryMutation.repositionCategoryVariables) (err : JsErr)
    (w : World) (C : list CategoryEntity) :
  cached "categories" w = Some C →
  ¬ rewrites_in_place (CategoryMutations.Reposition v) C →
  ∃ w',
    CategoryMutations.mutate_then_fail createOptimisticCategory
      (CategoryMutations.Reposition v) err w = Some (tt, w')
    ∧ cached "categories" w' = Some C.
Proof.
  intros (l & Hq & Hl)%cached_Some Hnot.
  assert (repositionCategoryMutation.onMutate v w
          = Some (mkContext (Some l), applied l (arrays w) w)) as Hrun.
  { destruct (located_or_absent (repositionCategoryMutation.categoryId v) C)
      as [(i & E & Hfirst)|Habs].
    - apply (reposition_onMutate_kept _ _ _ _ _ _ Hq Hl Hfirst).
      destruct (decide (repositionCategoryMutation.newPosition v = Z.of_nat i
                        ∨ (repositionCategoryMutation.newPosition v
                           >= Z.of_nat (length C))%Z
                        ∨ (repositionCategoryMutation.newPosition v < 0)%Z))
        as [Hkept|Hmoved]; [exact Hkept|].
      exfalso. apply Hnot. exists i, E. split; [exact Hfirst|]. lia.
    - apply (reposition_onMutate_missing _ _ _ _ Hq Hl Habs). }
  unfold CategoryMutations.mutate_then_fail. cbn [CategoryMutations.onMutate].
  rewrite (bind_run_Some _ _ _ _ _ Hrun), onError_run.
  eexists. split; [reflexivity|].
  unfold cached, rolled_back. cbn. rewrite lookup_insert_eq. cbn. exact Hl.
Qed.

(** X4. Whenever the transform does not write into the cached array
    itself (every create and delete, an update or reposition whose target
    is missing, a reposition that moves nothing), a failed invocation
    shows the collection again exactly as it was cached before. *)
Theorem failed_invocation_restores
    (createOptimisticCategory : gmap string JsVal → CategoryEntity)
    (op : CategoryMutations.Operation) (err : JsErr)
    (w : World) (C : list CategoryEntity) :
  cached "categories" w = Some C →
  ¬ rewrites_in_place op C →
  ∃ w',
    CategoryMutations.mutate_then_fail createOptimisticCategory op err w
    = Some (tt, w')
    ∧ cached "categories" w' = Some C.
Proof.
  intros Hc Hnot. destruct op as [v|v|v|v].
  - apply failed_create_restores, Hc.
  - destruct (located_or_absent (updateCategoryMutation.categoryId v) C)
      as [Hfound|Habs].
    + exfalso. exact (Hnot Hfound).
    + apply failed_update_of_missing_restores; assumption.
  - apply failed_reposition_unmoved_restores; assumption.
  - apply failed_delete_restores, Hc.
Qed.

Lemma failed_invocation_restores_witness :
  let op := CategoryMutations.Delete (deleteCategoryMutation.mkVariables (JNum 2)) in
  ∃ w',
    CategoryMutations.mutate_then_fail sample_factory op network_error board_world
    = Some (tt, w')
    ∧ cached "categories" w' = Some board.
Proof.
  intros op.
  apply (failed_invocation_restores sample_factory op network_error
           board_world board).
  - vm_compute. reflexivity.
  - intros [].
Defined.

(** ** More on reposition *)

Lemma moved_explicit {A} (C : list A) (i j : nat) (x : A) :
  (i < length C)%nat → (j < length C)%nat →
  array_splice (Z.of_nat j) 0 [x] (array_splice (Z.of_nat i) 1 [] C)
  = take j (delete i C) ++ x :: drop j (delete i C).
Proof.
  intros Hi Hj. rewrite array_splice_remove by exact Hi.
  assert (length (delete i C) = length C - 1)%nat as Hlen.
  { rewrite length_delete; [reflexivity|]. apply lookup_lt_is_Some. exact Hi. }
  rewrite array_splice_insert by lia. rewrite Nat2Z.id. reflexivity.
Qed.

Lemma moved_permutation {A} (C : list A) (i j : nat) (x : A) :
  C !! i = Some x → (j < length C)%nat →
  array_splice (Z.of_nat j) 0 [x] (array_splice (Z.of_nat i) 1 [] C) ≡ₚ C.
Proof.
  intros Hi Hj. rewrite moved_explicit by (eauto using lookup_lt_Some).
  rewrite <- Permutation_middle, take_drop.
  symmetry. apply delete_Permutation, Hi.
Qed.

(** Putting an element back where it was taken from. *)
Lemma reinsert_deleted {A} (C : list A) (i : nat) (x : A) :
  C !! i = Some x → take i (delete i C) ++ x :: drop i (delete i C) = C.
Proof.
  intros Hi. pose proof (lookup_lt_Some _ _ _ Hi) as Hlt.
  rewrite delete_take_drop.
  rewrite take_app_length' by (rewrite length_take; lia).
  rewrite drop_app_length' by (rewrite length_take; lia).
  apply take_drop_middle, Hi.
Qed.

(** X7. Whatever the target identity and the new position, the
    reposition transform rearranges the cached collection and nothing
    more: the result has the same entities with the same multiplicities,
    so no entity is lost or duplicated and unique identities stay
    unique. *)
Theorem reposition_permutes
    (v : repositionCategoryMutation.repositionCategoryVariables)
    (w : World) (C : list CategoryEntity) :
  cached "categories" w = Some C →
  ∃ ctx w' C',
    repositionCategoryMutation.onMutate v w = Some (ctx, w')
    ∧ cached "categories" w' = Some C'
    ∧ C' ≡ₚ C
    ∧ (NoDup (entity_id <$> C) → NoDup (entity_id <$> C')).
Proof.
  intros Hc. pose proof Hc as (l & Hq & Hl)%cached_Some.
  assert (is_Some (arrays w !! l)) as Hsome by (rewrite Hl; eauto).
  assert (∃ ctx w' C',
            repositionCategoryMutation.onMutate v w = Some (ctx, w')
            ∧ cached "categories" w' = Some C' ∧ C' ≡ₚ C)
    as (ctx & w' & C' & Hrun & Hc' & Hperm).
  { destruct (located_or_absent (repositionCategoryMutation.categoryId v) C)
      as [(i & E & Hfirst)|Habs].
    - destruct (decide (repositionCategoryMutation.newPosition v = Z.of_nat i
                        ∨ (repositionCategoryMutation.newPosition v
                           >= Z.of_nat (length C))%Z
                        ∨ (repositionCategoryMutation.newPosition v < 0)%Z))
        as [Hkept|Hmoved]; eexists _, _, _.
      + split; [apply (reposition_onMutate_kept _ _ _ _ _ _ Hq Hl Hfirst Hkept)|].
        split; [rewrite (cached_applied_same _ _ Hq); exact Hc|reflexivity].
      + split; [apply (reposition_onMutate_moved _ _ _ _ _ _ Hq Hl Hfirst); lia|].
        split; [apply (cached_applied_inplace _ _ _ Hsome)|].
        destruct Hfirst as (Hi & _ & _).
        rewrite <- (Z2Nat.id (repositionCategoryMutation.newPosition v)) by lia.
        apply moved_permutation; [exact Hi|lia].
    - eexists _, _, _.
      split; [apply (reposition_onMutate_missing _ _ _ _ Hq Hl Habs)|].
      split; [rewrite (cached_applied_same _ _ Hq); exact Hc|reflexivity]. }
  exists ctx, w', C'. split; [exact Hrun|]. split; [exact Hc'|].
  split; [exact Hperm|]. intros Hnd. rewrite Hperm. exact Hnd.
Qed.

Lemma reposition_permutes_witness :
  let v := repositionCategoryMutation.mkVariables (JNum 3) 0 in
  ∃ ctx w' C',
    repositionCategoryMutation.onMutate v board_world = Some (ctx, w')
    ∧ cached "categories" w' = Some C'
    ∧ C' ≡ₚ board
    ∧ (NoDup (entity_id <$> board) → NoDup (entity_id <$> C')).
Proof.
  intros v. apply (reposition_permutes v board_world board).
  vm_compute. reflexivity.
Defined.

(** X8. A move of the target from index [i] to index [j] shifts exactly
    the elements between the two: the target lands on [j], the elements
    strictly after [i] up to [j] step one index down when it moves towards
    the end, the elements from [j] up to just before [i] step one index up
    when it moves towards the front, and every element outside that range
    keeps its index. *)
Theorem reposition_pointwise
    (v : repositionCategoryMutation.repositionCategoryVariables)
    (w : World) (C : list CategoryEntity) (i j : nat) (E : CategoryEntity) :
  cached "categories" w = Some C →
  first_at (repositionCategoryMutation.categoryId v) C i E →
  repositionCategoryMutation.newPosition v = Z.of_nat j →
  (j < length C)%nat → j ≠ i →
  ∃ ctx w' C',
    repositionCategoryMutation.onMutate v w = Some (ctx, w')
    ∧ cached "categories" w' = Some C'
    ∧ C' !! j = Some E
    ∧ (∀ k, (i ≤ k < j)%nat → C' !! k = C !! S k)
    ∧ (∀ k, (j < k ≤ i)%nat → C' !! k = C !! (k - 1)%nat)
    ∧ (∀ k, (k < i ∧ k < j)%nat ∨ (i < k ∧ j < k)%nat → C' !! k = C !! k).
Proof.
  intros (l & Hq & Hl)%cached_Some Hfirst Hpos Hj Hne.
  assert (is_Some (arrays w !! l)) as Hsome by (rewrite Hl; eauto).
  pose proof Hfirst as (Hi & _ & _). pose proof (lookup_lt_Some _ _ _ Hi) as Hlt.
  eexists _, _, _.
  split; [apply (reposition_onMutate_moved _ _ _ _ _ _ Hq Hl Hfirst); lia|].
  split; [apply (cached_applied_inplace _ _ _ Hsome)|].
  rewrite Hpos, moved_explicit by assumption.
  assert (length (delete i C) = length C - 1)%nat as Hlen.
  { rewrite length_delete; [reflexivity|]. apply lookup_lt_is_Some. exact Hlt. }
  assert (length (take j (delete i C)) = j) as Htake.
  { apply length_take_le. lia. }
  assert (∀ k, (k < j)%nat →
            (take j (delete i C) ++ E :: drop j (delete i C)) !! k
            = delete i C !! k) as Hbefore.
  { intros k Hk. rewrite lookup_app_l by lia. apply lookup_take_lt, Hk. }
  assert (∀ k, (j < k)%nat →
            (take j (delete i C) ++ E :: drop j (delete i C)) !! k
            = delete i C !! (k - 1)%nat) as Hafter.
  { intros k Hk. rewrite lookup_app_r by lia. rewrite Htake.
    replace (k - j)%nat with (S (k - j - 1)) by lia.
    change ((E :: drop j (delete i C)) !! S (k - j - 1))
      with (drop j (delete i C) !! (k - j - 1)%nat).
    rewrite lookup_drop. f_equal. lia. }
  split; [apply list_lookup_middle; symmetry; exact Htake|].
  split; [|split].
  - intros k Hk. rewrite Hbefore by lia. apply list_lookup_delete_ge. lia.
  - intros k Hk. rewrite Hafter by lia. apply list_lookup_delete_lt. lia.
  - intros k [Hk|Hk].
    + rewrite Hbefore by lia. apply list_lookup_delete_lt. lia.
    + rewrite Hafter by lia. rewrite list_lookup_delete_ge by lia.
      f_equal. lia.
Qed.

Lemma reposition_pointwise_witness :
  let v := repositionCategoryMutation.mkVariables (JNum 1) 2 in
  ∃ ctx w' C',
    repositionCategoryMutation.onMutate v board_world = Some (ctx, w')
    ∧ cached "categories" w' = Some C'
    ∧ C' !! 2%nat = Some (category 1 "A")
    ∧ (∀ k, (0 ≤ k < 2)%nat → C' !! k = board !! S k)
    ∧ (∀ k, (2 < k ≤ 0)%nat → C' !! k = board !! (k - 1)%nat)
    ∧ (∀ k, (k < 0 ∧ k < 2)%nat ∨ (0 < k ∧ 2 < k)%nat → C' !! k = board !! k).
Proof.
  intros v.
  apply (reposition_pointwise v board_world board 0%nat 2%nat (category 1 "A")).
  - vm_compute. reflexivity.
  - apply (bool_decide_unpack _). vm_compute. exact I.
  - reflexivity.
  - vm_compute. lia.
  - lia.
Defined.

(** X9. Moving an entity and then moving it back to the index it came
    from gives the original collection again, when identities are
    unique. *)
Theorem reposition_back_restores
    (v : repositionCategoryMutation.repositionCategoryVariables)
    (w : World) (C : list CategoryEntity) (i j : nat) (E : CategoryEntity) :
  cached "categories" w = Some C →
  NoDup (entity_id <$> C) →
  C !! i = Some E →
  entity_id E = repositionCategoryMutation.categoryId v →
  repositionCategoryMutation.newPosition v = Z.of_nat j →
  (j < length C)%nat → j ≠ i →
  ∃ ctx1 w1 ctx2 w2,
    repositionCategoryMutation.onMutate v w = Some (ctx1, w1)
    ∧ repositionCategoryMutation.onMutate
        (repositionCategoryMutation.mkVariables
           (repositionCategoryMutation.categoryId v) (Z.of_nat i)) w1
      = Some (ctx2, w2)
    ∧ cached "categories" w2 = Some C.
Proof.
  intros (l & Hq & Hl)%cached_Some Hnd Hi Hid Hpos Hj Hne.
  assert (is_Some (arrays w !! l)) as Hsome by (rewrite Hl; eauto).
  pose proof (lookup_lt_Some _ _ _ Hi) as Hlt.
  pose proof (unique_first_at _ _ _ _ Hnd Hi Hid) as Hfirst.
  set (C' := array_splice (Z.of_nat j) 0 [E] (array_splice (Z.of_nat i) 1 [] C)).
  destruct (moved_shape C i (Z.of_nat j) E Hlt ltac:(lia)) as (Hj' & Hdel & Hlen).
  fold C' in Hj', Hdel, Hlen. rewrite Nat2Z.id in Hj', Hdel.
  assert (first_at (repositionCategoryMutation.categoryId v) C' j E) as Hfirst'.
  { apply unique_first_at; [|exact Hj'|exact Hid].
    unfold C'. rewrite moved_permutation by assumption. exact Hnd. }
  set (w1 := applied l (<[l := C']> (arrays w)) w).
  assert (queries w1 !! "categories" = Some l) as Hq1 by apply lookup_insert_eq.
  assert (arrays w1 !! l = Some C') as Hl1.
  { apply list_lookup_insert_eq, lookup_lt_is_Some, Hsome. }
  exists (mkContext (Some l)), w1. eexists _, _.
  split.
  { unfold w1, C'. rewrite <- Hpos.
    apply (reposition_onMutate_moved _ _ _ _ _ _ Hq Hl Hfirst); lia. }
  split.
  { apply (reposition_onMutate_moved
             (repositionCategoryMutation.mkVariables
                (repositionCategoryMutation.categoryId v) (Z.of_nat i))
             _ _ _ _ _ Hq1 Hl1 Hfirst'); cbn; lia. }
  rewrite cached_applied_inplace by (rewrite Hl1; eauto). f_equal. cbn.
  rewrite array_splice_remove by lia. rewrite Hdel.
  rewrite array_splice_insert, Nat2Z.id.
  - apply reinsert_deleted, Hi.
  - rewrite length_delete by (apply lookup_lt_is_Some, Hlt). lia.
Qed.

Lemma reposition_back_restores_witness :
  let v := repositionCategoryMutation.mkVariables (JNum 3) 0 in
  ∃ ctx1 w1 ctx2 w2,
    repositionCategoryMutation.onMutate v board_world = Some (ctx1, w1)
    ∧ repositionCategoryMutation.onMutate
        (repositionCategoryMutation.mkVariables (JNum 3) 2) w1
      = Some (ctx2, w2)
    ∧ cached "categories" w2 = Some board.
Proof.
  intros v.
  apply (reposition_back_restores v board_world board 2%nat 0%nat (category 3 "C")).
  - vm_compute. reflexivity.
  - apply (bool_decide_unpack _). vm_compute. exact I.
  - reflexivity.
  - reflexivity.
  - reflexivity.
  - vm_compute. lia.
  - lia.
Defined.

(** ** More on delete *)

Lemma filter_fixed {A} (p : A → bool) (l : list A) :
  Forall (λ x, p x = true) l → List.filter p l = l.
Proof.
  induction 1 as [|x l Hx _ IH]; cbn; [reflexivity|]. rewrite Hx, IH. reflexivity.
Qed.

Lemma keep_other_ids categoryId (e : CategoryEntity) :
  negb (strict_eq (entity_id e) categoryId) = true ↔ entity_id e ≠ categoryId.
Proof.
  rewrite negb_true_iff, <- not_true_iff_false.
  apply not_iff_compat, strict_eq_true.
Qed.

(** X10. Deleting an identity that no cached entity carries leaves the
    visible collection exactly as it was. *)
Theorem delete_of_missing_is_noop
    (v : deleteCategoryMutation.deleteCategoryVariables)
    (w : World) (C : list CategoryEntity) :
  cached "categories" w = Some C →
  absent_from (deleteCategoryMutation.categoryId v) C →
  ∃ ctx w',
    deleteCategoryMutation.onMutate v w = Some (ctx, w')
    ∧ cached "categories" w' = Some C.
Proof.
  intros (l & Hq & Hl)%cached_Some Habs. eexists _, _.
  split; [apply (delete_onMutate_present _ _ _ _ Hq Hl)|].
  rewrite cached_applied_fresh. f_equal. apply filter_fixed.
  eapply Forall_impl; [exact Habs|]. intros e. apply keep_other_ids.
Qed.

Lemma delete_of_missing_is_noop_witness :
  let v := deleteCategoryMutation.mkVariables (JNum 7) in
  ∃ ctx w',
    deleteCategoryMutation.onMutate v board_world = Some (ctx, w')
    ∧ cached "categories" w' = Some board.
Proof.
  intros v. apply (delete_of_missing_is_noop v board_world board).
  - vm_compute. reflexivity.
  - apply (bool_decide_unpack _). vm_compute. exact I.
Defined.

(** X11. Deleting the same identity a second time changes nothing: after
    two delete transforms in a row the cache shows what it showed after the
    first. *)
Theorem delete_twice_is_delete_once
    (v : deleteCategoryMutation.deleteCategoryVariables)
    (w : World) (C : list CategoryEntity) :
  cached "categories" w = Some C →
  ∃ ctx1 w1 ctx2 w2 C',
    deleteCategoryMutation.onMutate v w = Some (ctx1, w1)
    ∧ cached "categories" w1 = Some C'
    ∧ deleteCategoryMutation.onMutate v w1 = Some (ctx2, w2)
    ∧ cached "categories" w2 = Some C'.
Proof.
  intros (l & Hq & Hl)%cached_Some.
  set (keep := λ e : CategoryEntity,
         negb (strict_eq (entity_id e) (deleteCategoryMutation.categoryId v))).
  set (w1 := applied (length (arrays w)) (arrays w ++ [List.filter keep C]) w).
  assert (queries w1 !! "categories" = Some (length (arrays w))) as Hq1
    by apply lookup_insert_eq.
  assert (arrays w1 !! length (arrays w) = Some (List.filter keep C)) as Hl1
    by apply lookup_alloc.
  eexists _, w1, _, _, (List.filter keep C).
  split; [apply (delete_onMutate_present _ _ _ _ Hq Hl)|].
  split; [apply cached_applied_fresh|].
  split; [apply (delete_onMutate_present _ _ _ _ Hq1 Hl1)|].
  rewrite cached_applied_fresh. f_equal. apply filter_fixed, filter_all.
Qed.

Lemma delete_twice_is_delete_once_witness :
  let v := deleteCategoryMutation.mkVariables (JNum 2) in
  ∃ ctx1 w1 ctx2 w2 C',
    deleteCategoryMutation.onMutate v board_world = Some (ctx1, w1)
    ∧ cached "categories" w1 = Some C'
    ∧ deleteCategoryMutation.onMutate v w1 = Some (ctx2, w2)
    ∧ cached "categories" w2 = Some C'.
Proof.
  intros v. apply (delete_twice_is_delete_once v board_world board).
  vm_compute. reflexivity.
Defined.

(** ** More on update *)

Lemma spread_twice (E dto : gmap string JsVal) :
  spread (spread E dto) dto = spread E dto.
Proof.
  unfold spread. apply map_eq. intros k. rewrite !lookup_union.
  destruct (dto !! k), (E !! k); reflexivity.
Qed.

Lemma spread_keeps_id (E dto : gmap string JsVal) :
  dto !! "id" = None → entity_id (spread E dto) = entity_id E.
Proof.
  intros Hid. unfold entity_id, prop, spread.
  rewrite lookup_union_r by exact Hid. reflexivity.
Qed.

(** X12. An update whose request carries no fields leaves the visible
    collection exactly as it was. *)
Theorem update_with_empty_request_is_noop
    (v : updateCategoryMutation.updateCategoryVariables)
    (w : World) (C : list CategoryEntity) (i : nat) (E : CategoryEntity) :
  cached "categories" w = Some C →
  first_at (updateCategoryMutation.categoryId v) C i E →
  updateCategoryMutation.updateCategoryDto v = ∅ →
  ∃ ctx w',
    updateCategoryMutation.onMutate v w = Some (ctx, w')
    ∧ cached "categories" w' = Some C.
Proof.
  intros (l & Hq & Hl)%cached_Some Hfirst Hempty. eexists _, _.
  split; [apply (update_onMutate_found _ _ _ _ _ _ Hq Hl Hfirst)|].
  rewrite cached_applied_inplace by (rewrite Hl; eauto). f_equal.
  destruct Hfirst as (Hi & _ & _). rewrite Hempty. unfold spread.
  rewrite (left_id_L ∅ (∪)). apply list_insert_id, Hi.
Qed.

Lemma update_with_empty_request_is_noop_witness :
  let v := updateCategoryMutation.mkVariables (JNum 2) ∅ in
  ∃ ctx w',
    updateCategoryMutation.onMutate v board_world = Some (ctx, w')
    ∧ cached "categories" w' = Some board.
Proof.
  intros v.
  apply (update_with_empty_request_is_noop v board_world board 1%nat
           (category 2 "B")).
  - vm_compute. reflexivity.
  - apply (bool_decide_unpack _). vm_compute. exact I.
  - reflexivity.
Defined.

(** X13. An update whose request has no [id] field leaves every identity
    at its index, so a collection with unique identities keeps them
    unique. *)
Theorem update_keeps_identities
    (v : updateCategoryMutation.updateCategoryVariables)
    (w : World) (C : list CategoryEntity) (i : nat) (E : CategoryEntity) :
  cached "categories" w = Some C →
  first_at (updateCategoryMutation.categoryId v) C i E →
  updateCategoryMutation.updateCategoryDto v !! "id" = None →
  ∃ ctx w' C',
    updateCategoryMutation.onMutate v w = Some (ctx, w')
    ∧ cached "categories" w' = Some C'
    ∧ entity_id <$> C' = entity_id <$> C
    ∧ (NoDup (entity_id <$> C) → NoDup (entity_id <$> C')).
Proof.
  intros (l & Hq & Hl)%cached_Some Hfirst Hid. eexists _, _, _.
  split; [apply (update_onMutate_found _ _ _ _ _ _ Hq Hl Hfirst)|].
  split; [apply cached_applied_inplace; rewrite Hl; eauto|].
  destruct Hfirst as (Hi & _ & _).
  assert (entity_id <$> <[i := spread E (updateCategoryMutation.updateCategoryDto v)]> C
          = entity_id <$> C) as Hids.
  { rewrite list_fmap_insert, (spread_keeps_id _ _ Hid).
    apply list_insert_id. rewrite list_lookup_fmap, Hi. reflexivity. }
  split; [exact Hids|]. rewrite Hids. auto.
Qed.

Lemma update_keeps_identities_witness :
  let v := updateCategoryMutation.mkVariables (JNum 2) {[ "title" := JStr "Z" ]} in
  ∃ ctx w' C',
    updateCategoryMutation.onMutate v board_world = Some (ctx, w')
    ∧ cached "categories" w' = Some C'
    ∧ entity_id <$> C' = entity_id <$> board
    ∧ (NoDup (entity_id <$> board) → NoDup (entity_id <$> C')).
Proof.
  intros v.
  apply (update_keeps_identities v board_world board 1%nat (category 2 "B")).
  - vm_compute. reflexivity.
  - apply (bool_decide_unpack _). vm_compute. exact I.
  - vm_compute. reflexivity.
Defined.

(** X14. Applying the same update a second time changes nothing, when the
    request has no [id] field: after two update transforms in a row the
    cache shows what it showed after the first. *)
Theorem update_twice_is_update_once
    (v : updateCategoryMutation.updateCategoryVariables)
    (w : World) (C : list CategoryEntity) (i : nat) (E : CategoryEntity) :
  cached "categories" w = Some C →
  first_at (updateCategoryMutation.categoryId v) C i E →
  updateCategoryMutation.updateCategoryDto v !! "id" = None →
  ∃ ctx1 w1 ctx2 w2 C',
    updateCategoryMutation.onMutate v w = Some (ctx1, w1)
    ∧ cached "categories" w1 = Some C'
    ∧ updateCategoryMutation.onMutate v w1 = Some (ctx2, w2)
    ∧ cached "categories" w2 = Some C'.
Proof.
  intros (l & Hq & Hl)%cached_Some Hfirst Hid.
  assert (is_Some (arrays w !! l)) as Hsome by (rewrite Hl; eauto).
  set (dto := updateCategoryMutation.updateCategoryDto v) in *.
  set (C' := <[i := spread E dto]> C).
  set (w1 := applied l (<[l := C']> (arrays w)) w).
  assert (queries w1 !! "categories" = Some l) as Hq1 by apply lookup_insert_eq.
  assert (arrays w1 !! l = Some C') as Hl1.
  { apply list_lookup_insert_eq, lookup_lt_is_Some, Hsome. }
  pose proof Hfirst as (Hi & Hcid & Hbefore).
  pose proof (lookup_lt_Some _ _ _ Hi) as Hlt.
  assert (first_at (updateCategoryMutation.categoryId v) C' i (spread E dto))
    as Hfirst'.
  { split; [apply list_lookup_insert_eq, Hlt|].
    split; [rewrite (spread_keeps_id _ _ Hid); exact Hcid|].
    unfold C'. rewrite take_insert_ge by lia. exact Hbefore. }
  eexists _, w1, _, _, C'.
  split; [apply (update_onMutate_found _ _ _ _ _ _ Hq Hl Hfirst)|].
  split; [apply (cached_applied_inplace _ _ _ Hsome)|].
  split; [apply (update_onMutate_found _ _ _ _ _ _ Hq1 Hl1 Hfirst')|].
  rewrite cached_applied_inplace by (rewrite Hl1; eauto). f_equal.
  fold dto. rewrite spread_twice. unfold C'. apply list_insert_insert_eq.
Qed.

Lemma update_twice_is_update_once_witness :
  let v := updateCategoryMutation.mkVariables (JNum 2) {[ "title" := JStr "Z" ]} in
  ∃ ctx1 w1 ctx2 w2 C',
    updateCategoryMutation.onMutate v board_world = Some (ctx1, w1)
    ∧ cached "categories" w1 = Some C'
    ∧ updateCategoryMutation.onMutate v w1 = Some (ctx2, w2)
    ∧ cached "categories" w2 = Some C'.
Proof.
  intros v.
  apply (update_twice_is_update_once v board_world board 1%nat (category 2 "B")).
  - vm_compute. reflexivity.
  - apply (bool_decide_unpack _). vm_compute. exact I.
  - vm_compute. reflexivity.
Defined.

(** ** Overlapping invocations *)

(** X15. When a create is followed by the pre-mutation hook of any other
    invocation before its transport call fails, the create's error hook
    still shows the collection as the create found it: the later
    invocation's speculative write is discarded together with the
    optimistic entity. *)
Theorem create_rollback_discards_later_write
    (createOptimisticCategory : gmap string JsVal → CategoryEntity)
    (v : createCategoryMutation.createCategoryVariables)
    (later : CategoryMutations.Operation) (err : JsErr)
    (w : World) (C : list CategoryEntity) :
  cached "categories" w = Some C →
  ∃ ctx1 w1 ctx2 w2 w3,
    CategoryMutations.onMutate createOptimisticCategory
      (CategoryMutations.Create v) w = Some (ctx1, w1)
    ∧ CategoryMutations.onMutate createOptimisticCategory later w1 = Some (ctx2, w2)
    ∧ CategoryMutations.onError (CategoryMutations.Create v) err (Some ctx1) w2
      = Some (tt, w3)
    ∧ cached "categories" w3 = Some C.
Proof.
  intros (l & Hq & Hl)%cached_Some.
  pose proof (lookup_lt_Some _ _ _ Hl) as Hlt.
  set (grown := arrays w ++
         [C ++ [createOptimisticCategory (createCategoryMutation.createCategoryDto v)]]).
  set (w1 := applied (length (arrays w)) grown w).
  assert (queries w1 !! "categories" = Some (length (arrays w))) as Hq1
    by apply lookup_insert_eq.
  assert (well_formed w1) as Hwf1.
  { intros l' Hl'. rewrite Hq1 in Hl'. injection Hl' as <-.
    cbn. unfold grown. rewrite lookup_alloc. eauto. }
  destruct (onMutate_shape createOptimisticCategory later w1 Hwf1)
    as (data & h & Hrun & Hshape).
  assert (h !! l = Some C) as Hkept.
  { destruct Hshape as [(a & _ & ->)|(a & Hdata & _ & ->)].
    - cbn. unfold grown. rewrite !lookup_app_l; [exact Hl|exact Hlt|].
      rewrite length_app. lia.
    - rewrite Hq1 in Hdata. injection Hdata as <-. cbn. unfold grown.
      rewrite list_lookup_insert_ne by lia.
      rewrite lookup_app_l by exact Hlt. exact Hl. }
  eexists (mkContext (Some l)), w1, _, _, _.
  split; [apply (create_onMutate_present _ _ _ _ _ Hq Hl)|].
  split; [exact Hrun|]. split; [apply onError_run|].
  unfold cached, rolled_back. cbn. rewrite lookup_insert_eq. exact Hkept.
Qed.

Lemma create_rollback_discards_later_write_witness :
  let v := createCategoryMutation.mkVariables {[ "title" := JStr "D" ]} in
  let later := CategoryMutations.Update
                 (updateCategoryMutation.mkVariables (JNum 2) {[ "title" := JStr "Z" ]}) in
  ∃ ctx1 w1 ctx2 w2 w3,
    CategoryMutations.onMutate sample_factory (CategoryMutations.Create v)
      board_world = Some (ctx1, w1)
    ∧ CategoryMutations.onMutate sample_factory later w1 = Some (ctx2, w2)
    ∧ CategoryMutations.onError (CategoryMutations.Create v) network_error
        (Some ctx1) w2 = Some (tt, w3)
    ∧ cached "categories" w3 = Some board.
Proof.
  intros v later.
  apply (create_rollback_discards_later_write sample_factory v later
           network_error board_world board).
  vm_compute. reflexivity.
Defined.
